(** * simple-store: the query/result store and its bounded cache

    A shallow embedding of [src/query-result-store.ts] and of the two helpers
    of [util.ts] ([serializeObject], [removeOldestEntry]), together with the
    properties of the cache, of the cache key and of the setters.

    JavaScript data is modelled as follows.
    - A plain object is the list of its own enumerable properties, in the
      order in which [Object.keys] enumerates them.
    - A [Map] is the list of its entries in insertion order.
    - Property names and cache keys are strings; [Array.prototype.sort]
      without a comparator orders them by character code.
    - A method of the store is a function from the store to an outcome
      (returned value or thrown exception) and the store it leaves behind. *)

From Stdlib Require Import ZArith Lia Ascii String OrderedTypeEx.
From stdpp Require Import base tactics option list strings sorting pretty.

(** ** JavaScript values *)

(** The values a query, a result or a transient record can hold: JSON data
    and [undefined].  Numbers are the integer-valued ones. *)
#[warnings="-register-all"] Inductive value : Type :=
  | VUndefined
  | VNull
  | VBool (b : bool)
  | VNum (n : Z)
  | VStr (s : string)
  | VArr (items : list value)
  | VObj (fields : list (string * value)).

(** [v === undefined] *)
Definition is_undefined (v : value) : bool :=
  match v with VUndefined => true | _ => false end.

(** ** Plain objects *)

Module Obj.

(** Own properties in enumeration order; names are unique. *)
Definition t : Type := list (string * value).

Definition keys (o : t) : list string := o.*1.

Definition wf (o : t) : Prop := NoDup (keys o).

Fixpoint lookup (k : string) (o : t) : option value :=
  match o with
  | [] => None
  | (k', v) :: o' => if decide (k = k') then Some v else lookup k o'
  end.

Definition has (k : string) (o : t) : bool :=
  match lookup k o with Some _ => true | None => false end.

(** [o[k]] for an own property; a name that is not there reads [undefined]. *)
Definition get (k : string) (o : t) : value :=
  default VUndefined (lookup k o).

(** *** Property order

    Own property names that are array indices ("0", "1", ..., up to
    2^32 - 2, written without leading zeros) are enumerated first, in
    ascending numeric order; the other names follow in creation order. *)

Definition digit_of (c : ascii) : option N :=
  let n := N_of_ascii c in
  if ((48 <=? n) && (n <=? 57))%N then Some (n - 48)%N else None.

Fixpoint parse_digits (acc : N) (s : string) : option N :=
  match s with
  | EmptyString => Some acc
  | String c s' =>
      match digit_of c with
      | Some d => parse_digits (10 * acc + d)%N s'
      | None => None
      end
  end.

Definition array_index (s : string) : option N :=
  match s with
  | EmptyString => None
  | String c rest =>
      if decide (c = "0"%char) then
        match rest with EmptyString => Some 0%N | _ => None end
      else
        match parse_digits 0 s with
        | Some n => if (n <? 2 ^ 32 - 1)%N then Some n else None
        | None => None
        end
  end.

(** Replace the value of an existing property; its place is kept. *)
Fixpoint update (k : string) (v : value) (o : t) : t :=
  match o with
  | [] => []
  | (k', v') :: o' =>
      if decide (k = k') then (k', v) :: o' else (k', v') :: update k v o'
  end.

(** Place a new array-index property among the index properties. *)
Fixpoint insert_index (i : N) (k : string) (v : value) (o : t) : t :=
  match o with
  | [] => [(k, v)]
  | (k', v') :: o' =>
      match array_index k' with
      | Some j =>
          if (j <? i)%N then (k', v') :: insert_index i k v o'
          else (k, v) :: o
      | None => (k, v) :: o
      end
  end.

(** Creating or overwriting the own data property [k] (what an object
    spread does for each copied property). *)
Definition define (k : string) (v : value) (o : t) : t :=
  if has k o then update k v o
  else
    match array_index k with
    | Some i => insert_index i k v o
    | None => o ++ [(k, v)]
    end.

(** [o[k] = v] on an object created by [{}]: the name [__proto__] reaches
    the inherited setter and creates no own property. *)
Definition assign (k : string) (v : value) (o : t) : t :=
  if decide (k = "__proto__"%string) then o else define k v o.

(** Copy the own properties of [src] onto [dst], in the order of [src]. *)
Definition copy (src dst : t) : t :=
  fold_left (λ acc kv, define kv.1 kv.2 acc) src dst.

(** [{ ...a, ...b }] *)
Definition spread (a b : t) : t := copy b (copy a []).

End Obj.

(** ** es-toolkit's [omitBy]

    By its documented contract: a new object holding the properties of the
    argument whose value does not satisfy the predicate, in the order of
    the argument. *)
Definition omitBy (o : Obj.t) (shouldOmit : value → bool) : Obj.t :=
  List.filter (λ kv, negb (shouldOmit kv.2)) o.

(** ** Sorting property names *)

Definition key_le (a b : string) : Prop := String.leb a b = true.

#[global] Instance key_le_dec : RelDecision key_le.
Proof. intros a b. unfold key_le. apply _. Defined.

(** [names.sort()] *)
Definition sort_keys (names : list string) : list string :=
  merge_sort key_le names.

(** ** Insertion-ordered maps *)

Module JsMap.
Section JsMap.
Context {K V : Type} `{EqDecision K}.

(** Entries in insertion order; keys are unique. *)
Definition t : Type := list (K * V).

Definition wf (m : t) : Prop := NoDup m.*1.

Definition size (m : t) : nat := length m.

Fixpoint get (k : K) (m : t) : option V :=
  match m with
  | [] => None
  | (k', v) :: m' => if decide (k = k') then Some v else get k m'
  end.

Definition has (k : K) (m : t) : bool :=
  match get k m with Some _ => true | None => false end.

(** An existing key keeps its place; a new key goes last. *)
Fixpoint set (k : K) (v : V) (m : t) : t :=
  match m with
  | [] => [(k, v)]
  | (k', v') :: m' =>
      if decide (k = k') then (k', v) :: m' else (k', v') :: set k v m'
  end.

Fixpoint delete (k : K) (m : t) : t :=
  match m with
  | [] => []
  | (k', v') :: m' =>
      if decide (k = k') then m' else (k', v') :: delete k m'
  end.

Definition keys (m : t) : list K := m.*1.

(** [m.keys().next().value]; [None] is the [undefined] of an exhausted
    iterator. *)
Definition first_key (m : t) : option K := head (keys m).

End JsMap.
Arguments t : clear implicits.
End JsMap.

(** ** util.ts: [removeOldestEntry] *)

Section RemoveOldest.
Context {K V : Type} `{EqDecision K}.
(** Which keys of type [K] are the value [undefined]. *)
Variable key_is_undefined : K → bool.

Definition removeOldestEntry (map : JsMap.t K V) : JsMap.t K V :=
  match JsMap.first_key map with
  | None => map
  | Some firstKey =>
      if key_is_undefined firstKey then map
      else JsMap.delete firstKey map
  end.
End RemoveOldest.

(** ** util.ts: [serializeObject] *)

Section SerializeObject.
(** serialize-javascript's [serialize(o, { isJSON: true, ignoreFunction:
    true })] on a plain object; [None] when it throws. *)
Variable serialize : Obj.t → option string.

Definition sortedCopy (filtered : Obj.t) : Obj.t :=
  fold_left (λ acc key, Obj.assign key (Obj.get key filtered) acc)
    (sort_keys (Obj.keys filtered)) [].

Definition serializeObject (query : Obj.t) (sortKeys : bool) : option string :=
  let filtered := omitBy query is_undefined in
  if negb sortKeys then serialize filtered
  else
    let sorted := sortedCopy filtered in
    serialize sorted.

End SerializeObject.

(** ** A serializer to run the examples with

    [JSON.stringify] followed by the escaping of the characters that are
    unsafe in HTML, which is what serialize-javascript does under
    [isJSON: true]; exact on the values of type [value] whose strings are
    ASCII.  It never throws on these values. *)

Module Json.

Definition dquote : ascii := ascii_of_N 34.
Definition backslash : ascii := ascii_of_N 92.

Definition str2 (a b : ascii) : string := String a (String b EmptyString).

Definition hex_digit (n : N) : ascii :=
  ascii_of_N (if (n <? 10)%N then 48 + n else 87 + n)%N.

Definition escape_char (c : ascii) : string :=
  let n := N_of_ascii c in
  if (n =? 34)%N then str2 backslash dquote
  else if (n =? 92)%N then str2 backslash backslash
  else if (n =? 8)%N then "\b"
  else if (n =? 9)%N then "\t"
  else if (n =? 10)%N then "\n"
  else if (n =? 12)%N then "\f"
  else if (n =? 13)%N then "\r"
  else if (n <? 32)%N then
    "\u00" +:+ str2 (hex_digit (n / 16)) (hex_digit (n mod 16))
  else String c EmptyString.

Fixpoint escape (s : string) : string :=
  match s with
  | EmptyString => EmptyString
  | String c s' => escape_char c +:+ escape s'
  end.

Definition quote (s : string) : string :=
  String dquote (escape s +:+ String dquote EmptyString).

Fixpoint stringify (v : value) : string :=
  match v with
  | VUndefined | VNull => "null"
  | VBool b => if b then "true" else "false"
  | VNum n => pretty n
  | VStr s => quote s
  | VArr items => "[" +:+ String.concat "," (List.map stringify items) +:+ "]"
  | VObj fields =>
      "{" +:+
      String.concat ","
        ((fix members (fs : list (string * value)) : list string :=
            match fs with
            | [] => []
            | (k, v') :: fs' =>
                if is_undefined v' then members fs'
                else (quote k +:+ ":" +:+ stringify v') :: members fs'
            end) fields)
      +:+ "}"
  end.

Definition escape_unsafe_char (c : ascii) : string :=
  let n := N_of_ascii c in
  if (n =? 60)%N then "\u003C"
  else if (n =? 62)%N then "\u003E"
  else if (n =? 47)%N then "\u002F"
  else String c EmptyString.

Fixpoint escape_unsafe (s : string) : string :=
  match s with
  | EmptyString => EmptyString
  | String c s' => escape_unsafe_char c +:+ escape_unsafe s'
  end.

Definition serialize (o : Obj.t) : option string :=
  Some (escape_unsafe (stringify (VObj o))).

End Json.

(** ** StateSubject *)

Module StateSubject.
Section StateSubject.
Context {V : Type}.
(** es-toolkit's [isEqual]. *)
Variable equals : V → V → bool.

(** Modelled from the spec: state-subject.ts is not among the sources.  The
    emitter holds the construction-time value, the current value and the
    value last delivered to subscribers; [delivered] records, oldest first,
    the notifications a subscriber attached at construction has received
    after the replay of the initial value. *)
Record t : Type := mk
  { initialValue : V;
    current : V;
    lastEmitted : V;
    delivered : list V }.

(** Modelled from the spec: the constructor of StateSubject. *)
Definition create (initial : V) : t :=
  {| initialValue := initial; current := initial;
     lastEmitted := initial; delivered := [] |}.

(** Modelled from the spec: [update(value)] always overwrites [current],
    compares [value] with the value last delivered, and only when they
    differ delivers [value] and records it as last emitted. *)
Definition update (value : V) (s : t) : t :=
  let changed := negb (equals value (lastEmitted s)) in
  {| initialValue := initialValue s;
     current := value;
     lastEmitted := if changed then value else lastEmitted s;
     delivered := if changed then delivered s ++ [value] else delivered s |}.

(** Modelled from the spec: [reset()] is [update(initialValue)]. *)
Definition reset (s : t) : t := update (initialValue s) s.

(** A sequence of [update] calls, first call first. *)
Definition updates (values : list V) (s : t) : t :=
  fold_left (λ acc v, update v acc) values s.

(** The calls of a sequence whose value differs from the value delivered
    last before the call, [last] being the value delivered last before the
    sequence starts. *)
Fixpoint differing (last : V) (values : list V) : list V :=
  match values with
  | [] => []
  | v :: values' =>
      if equals v last then differing last values'
      else v :: differing v values'
  end.

End StateSubject.
Arguments t : clear implicits.
End StateSubject.

(** ** The store *)

(** The record a QueryResultStore keeps: [{ query, result, transient }]. *)
Record State : Type := mkState
  { query : Obj.t;
    result : Obj.t;
    transient : Obj.t }.

(** [Partial<State>] as the setters build it: each field given or left out. *)
Record PartialState : Type := mkPartial
  { p_query : option Obj.t;
    p_result : option Obj.t;
    p_transient : option Obj.t }.

(** [{ ...state, ...partial }] *)
Definition mergeState (s : State) (p : PartialState) : State :=
  {| query := default (query s) (p_query p);
     result := default (result s) (p_result p);
     transient := default (transient s) (p_transient p) |}.

(** The fields of a QueryResultStore instance: the StateSubject inherited
    from SimpleStore, the cache and its two settings. *)
Record Store : Type := mkStore
  { subject : StateSubject.t State;
    cache : JsMap.t string Obj.t;
    useCaching : bool;
    cacheLimit : Z }.

(** What a call leaves behind: the value it returns, or an exception. *)
Inductive outcome (A : Type) : Type :=
  | Returned (a : A)
  | Thrown.
Arguments Returned {A} a.
Arguments Thrown {A}.

(** A method: from the store before the call to the outcome and the store
    after it.  An exception does not undo the writes made before it. *)
Definition M (A : Type) : Type := Store → outcome A * Store.

#[global] Instance M_ret : MRet M := λ A a s, (Returned a, s).
#[global] Instance M_bind : MBind M := λ A B f m s,
  match m s with
  | (Returned a, s') => f a s'
  | (Thrown, s') => (Thrown, s')
  end.

Definition throw {A : Type} : M A := λ s, (Thrown, s).
Definition read {A : Type} (field : Store → A) : M A :=
  λ s, (Returned (field s), s).
Definition write (f : Store → Store) : M unit := λ s, (Returned (), f s).

Definition withSubject (f : StateSubject.t State → StateSubject.t State)
    (s : Store) : Store :=
  {| subject := f (subject s); cache := cache s;
     useCaching := useCaching s; cacheLimit := cacheLimit s |}.

Definition withCache (f : JsMap.t string Obj.t → JsMap.t string Obj.t)
    (s : Store) : Store :=
  {| subject := subject s; cache := f (cache s);
     useCaching := useCaching s; cacheLimit := cacheLimit s |}.

Definition withUseCaching (b : bool) (s : Store) : Store :=
  {| subject := subject s; cache := cache s;
     useCaching := b; cacheLimit := cacheLimit s |}.

Section QueryResultStore.
(** serialize-javascript's [serialize] under [isJSON], [ignoreFunction]. *)
Variable serialize : Obj.t → option string.
(** es-toolkit's [isEqual] on store records. *)
Variable equals : State → State → bool.

(** *** SimpleStore *)

(** Modelled from the spec: the constructor of SimpleStore, followed by the
    field initialisers of QueryResultStore (lines 28, 35, 42). *)
Definition create (initial : State) : Store :=
  {| subject := StateSubject.create initial; cache := [];
     useCaching := false; cacheLimit := 100 |}.

(** Modelled from the spec: [getState()] of SimpleStore (simple-store.ts is
    not among the sources) reads the current record. *)
Definition getState : M State := read (λ s, StateSubject.current (subject s)).

(** Modelled from the spec: [setState(partial)] of SimpleStore shallow-merges
    [partial] into the current record and forwards the merged record to the
    [update] of its StateSubject.  The optional side-effect callback is left
    out: QueryResultStore never passes one. *)
Definition setState (partial : PartialState) : M unit :=
  st ← getState;
  let next := mergeState st partial in
  write (withSubject (StateSubject.update equals next)).

(** *** QueryResultStore *)

Definition setQuery (q : Obj.t) : M unit :=
  st ← getState;
  setState {| p_query := Some (Obj.spread (query st) q);
              p_result := None; p_transient := None |}.

Definition getQuery : M Obj.t := st ← getState; mret (query st).

Definition getCacheKey : M string :=
  q ← getQuery;
  match serializeObject serialize q true with
  | Some key => mret key
  | None => throw
  end.

Definition getCachedResult : M (option Obj.t) :=
  caching ← read useCaching;
  if negb caching then mret None
  else
    key ← getCacheKey;
    c ← read cache;
    if JsMap.has key c then mret (JsMap.get key c) else mret None.

Definition cacheResult (r : Obj.t) : M unit :=
  caching ← read useCaching;
  if negb caching then mret ()
  else
    c ← read cache;
    limit ← read cacheLimit;
    (if (Z.of_nat (JsMap.size c) >=? Z.abs limit)%Z
     then write (withCache (removeOldestEntry (λ _, false)))
     else mret ());;
    key ← getCacheKey;
    write (withCache (JsMap.set key r)).

Definition setResult (r : Obj.t) : M unit :=
  st ← getState;
  let newResult := Obj.spread (result st) r in
  cacheResult newResult;;
  setState {| p_query := None; p_result := Some newResult;
              p_transient := None |}.

Definition getResult : M Obj.t := st ← getState; mret (result st).

Definition setTransient (t : Obj.t) : M unit :=
  st ← getState;
  setState {| p_query := None; p_result := None;
              p_transient := Some (Obj.spread (transient st) t) |}.

Definition getTransient : M Obj.t := st ← getState; mret (transient st).

Definition shouldCache (value : bool) : M unit := write (withUseCaching value).

End QueryResultStore.

(** A subclass that initialises the protected field [cacheLimit]. *)
Definition withCacheLimit (limit : Z) (s : Store) : Store :=
  {| subject := subject s; cache := cache s;
     useCaching := useCaching s; cacheLimit := limit |}.

(** ** Sequences of calls *)

Inductive call : Type :=
  | SetQuery (q : Obj.t)
  | GetQuery
  | SetResult (r : Obj.t)
  | GetResult
  | SetTransient (t : Obj.t)
  | GetTransient
  | GetCacheKey
  | GetCachedResult
  | CacheResult (r : Obj.t)
  | ShouldCache (value : bool).

Section Calls.
Variable serialize : Obj.t → option string.
Variable equals : State → State → bool.

(** The store a call leaves behind, whether it returns or throws. *)
Definition perform (c : call) (s : Store) : Store :=
  match c with
  | SetQuery q => (setQuery equals q s).2
  | GetQuery => (getQuery s).2
  | SetResult r => (setResult serialize equals r s).2
  | GetResult => (getResult s).2
  | SetTransient t => (setTransient equals t s).2
  | GetTransient => (getTransient s).2
  | GetCacheKey => (getCacheKey serialize s).2
  | GetCachedResult => (getCachedResult serialize s).2
  | CacheResult r => (cacheResult serialize r s).2
  | ShouldCache value => (shouldCache value s).2
  end.

Definition performAll (cs : list call) (s : Store) : Store :=
  fold_left (λ acc c, perform c acc) cs s.

End Calls.

(** ** The vocabulary of the properties *)

(** Two records agree on the fields whose value is not [undefined]. *)
Definition agree_defined (q1 q2 : Obj.t) : Prop :=
  ∀ k v, v ≠ VUndefined →
    (Obj.lookup k q1 = Some v ↔ Obj.lookup k q2 = Some v).

(** A name that is neither an array index nor [__proto__]. *)
Definition plain_name (k : string) : Prop :=
  Obj.array_index k = None ∧ k ≠ "__proto__"%string.

(** Well-formedness of a given object, by evaluation. *)
Ltac solve_wf :=
  unfold Obj.wf, Obj.keys;
  match goal with |- ?P => apply (@bool_decide_unpack P _) end;
  vm_compute; exact I.

(** The record the store holds. *)
Definition stateOf (s : Store) : State := StateSubject.current (subject s).

(** The three queries of the example: [{page: 1, q: undefined}],
    [{page: 1}] and [{q: undefined, page: 1}]. *)
Definition query_page_q : Obj.t :=
  [("page"%string, VNum 1); ("q"%string, VUndefined)].
Definition query_page : Obj.t :=
  [("page"%string, VNum 1)].
Definition query_q_page : Obj.t :=
  [("q"%string, VUndefined); ("page"%string, VNum 1)].

(** A new store on the query [q], with an empty result. *)
Definition storeWithQuery (q : Obj.t) : Store :=
  create {| query := q; result := []; transient := [] |}.

(** Unfolding of the methods down to functions on the store. *)
Ltac unfold_methods :=
  unfold setResult, cacheResult, getCachedResult, getCacheKey, setQuery,
    setTransient, getQuery, getResult, getTransient, setState, getState,
    shouldCache, read, write, throw, mbind, M_bind, mret, M_ret.

(** The outcome of a key computation. *)
Definition keyOutcome (key : option string) : outcome string :=
  match key with Some k => Returned k | None => Thrown end.

(** The cache once room has been made for an insertion. *)
Definition evicted (limit : Z) (c : JsMap.t string Obj.t) :
    JsMap.t string Obj.t :=
  if (Z.of_nat (JsMap.size c) >=? Z.abs limit)%Z
  then removeOldestEntry (λ _, false) c
  else c.

(** The commit of [setResult]: the merged result goes to the StateSubject. *)
Definition commitResult (equals : State → State → bool) (st : State)
    (r : Obj.t) : StateSubject.t State → StateSubject.t State :=
  StateSubject.update equals
    {| query := query st;
       result := Obj.spread (result st) r;
       transient := transient st |}.

(** The key [getCacheKey] computes for the query the store holds. *)
Definition currentKey (serialize : Obj.t → option string) (s : Store) :
    option string :=
  serializeObject serialize (query (stateOf s)) true.

(** ** A deep equality to run the examples with

    es-toolkit's [isEqual] on the values of type [value]: arrays are equal
    item by item, objects when they have the same names with equal values,
    in any order. *)

Module DeepEqual.

Fixpoint value_eqb (a b : value) : bool :=
  match a, b with
  | VUndefined, VUndefined => true
  | VNull, VNull => true
  | VBool x, VBool y => Bool.eqb x y
  | VNum x, VNum y => (x =? y)%Z
  | VStr x, VStr y => bool_decide (x = y)
  | VArr xs, VArr ys =>
      (fix items (xs ys : list value) : bool :=
         match xs, ys with
         | [], [] => true
         | x :: xs', y :: ys' => value_eqb x y && items xs' ys'
         | _, _ => false
         end) xs ys
  | VObj fa, VObj fb =>
      (length fa =? length fb) &&
      (fix fields (fs : list (string * value)) : bool :=
         match fs with
         | [] => true
         | (k, v) :: fs' =>
             match Obj.lookup k fb with
             | Some v' => value_eqb v v'
             | None => false
             end && fields fs'
         end) fa
  | _, _ => false
  end.

Definition equals (s1 s2 : State) : bool :=
  value_eqb (VObj (query s1)) (VObj (query s2))
  && value_eqb (VObj (result s1)) (VObj (result s2))
  && value_eqb (VObj (transient s1)) (VObj (transient s2)).

End DeepEqual.

(** [this.cache.size] *)
Definition cacheSize (s : Store) : Z := Z.of_nat (JsMap.size (cache s)).

(** [{page: n}], its cache key, and a result to store. *)
Definition pageQuery (n : Z) : Obj.t := [("page"%string, VNum n)].
Definition pageKey (n : Z) : string :=
  default EmptyString (serializeObject Json.serialize (pageQuery n) true).
Definition itemsResult (item : string) : Obj.t :=
  [("items"%string, VArr [VStr item])].

(** Sequences of calls run with the JSON serializer and the deep equality
    of the examples. *)
Definition performJson : list call → Store → Store :=
  performAll Json.serialize DeepEqual.equals.

(** A store whose subclass sets [cacheLimit = 0], with caching enabled. *)
Definition zeroLimitStore : Store :=
  performJson [ShouldCache true]
    (withCacheLimit 0 (storeWithQuery (pageQuery 1))).

(** The cache holds no more entries than the absolute value of the limit. *)
Definition bounded (s : Store) : Prop :=
  (cacheSize s ≤ Z.abs (cacheLimit s))%Z.

(** The scenario of the example: limit 2, keys K1, K2, K3 inserted in this
    order (K1 is evicted by K3), so that the cache is [{K2, K3}]. *)
Definition limitTwoStore : Store :=
  performJson
    [ShouldCache true;
     CacheResult (itemsResult "r1");
     SetQuery (pageQuery 2); CacheResult (itemsResult "r2");
     SetQuery (pageQuery 3); CacheResult (itemsResult "r3")]
    (withCacheLimit 2 (storeWithQuery (pageQuery 1))).

(** K2 is stored again, with a new value. *)
Definition afterReinsert : Store :=
  performJson [SetQuery (pageQuery 2); CacheResult (itemsResult "r2bis")]
    limitTwoStore.

(** The fresh key K4 is stored. *)
Definition afterFresh : Store :=
  performJson [SetQuery (pageQuery 4); CacheResult (itemsResult "r4")]
    afterReinsert.

(** The record without the field [f]. *)
Definition without (f : string) (o : Obj.t) : Obj.t :=
  List.filter (λ kv, negb (bool_decide (kv.1 = f))) o.

(** The store of the README: query [{q: 'books', page: 1}]. *)
Definition exampleStore : Store :=
  create {| query := [("q"%string, VStr "books"); ("page"%string, VNum 1)];
            result := itemsResult "A";
            transient := [("loading"%string, VBool false)] |}.

(** The end-to-end example: a store on the query [{page: 1}], caching
    enabled, [setResult({items: ['A']})]; then the query is changed to
    [{page: 2}] and back to [{page: 1}]. *)
Definition pageOneStore : Store :=
  performJson [ShouldCache true; SetResult (itemsResult "A")]
    (create {| query := pageQuery 1;
               result := [("items"%string, VArr [])];
               transient := [] |}).
Definition pageTwoStore : Store :=
  performJson [SetQuery (pageQuery 2)] pageOneStore.
Definition pageOneAgainStore : Store :=
  performJson [SetQuery (pageQuery 1)] pageTwoStore.

(** No call of the sequence enables caching. *)
Definition neverEnables (cs : list call) : Prop :=
  Forall (λ c, c ≠ ShouldCache true) cs.

(** A serializer that throws on every record. *)
Definition failingSerialize : Obj.t → option string := λ _, None.

(** A cached entry, then caching disabled, then enabled again. *)
Definition disabledStore : Store :=
  performJson [ShouldCache false; CacheResult (itemsResult "B")] pageOneStore.
Definition reenabledStore : Store :=
  performJson [ShouldCache true] disabledStore.

(** A comparison that is not transitive: integers at distance at most 1. *)
Definition near (a b : Z) : bool := (Z.abs (a - b) <=? 1)%Z.

(** ** The vocabulary of the further properties *)

(** The last [n] elements of a list. *)
Definition lastN {A : Type} (n : nat) (l : list A) : list A :=
  drop (length l - n) l.

(** The key under which a call stores an entry, if it stores one: a
    [cacheResult] or a [setResult] made while caching is enabled stores
    under the key of the query the store holds at that moment. *)
Definition insertion (serialize : Obj.t → option string) (c : call)
    (s : Store) : list string :=
  match c with
  | CacheResult _ | SetResult _ =>
      if useCaching s then
        match currentKey serialize s with
        | Some key => [key]
        | None => []
        end
      else []
  | _ => []
  end.

(** The keys under which the calls of a sequence store, first call first. *)
Fixpoint insertions (serialize : Obj.t → option string)
    (equals : State → State → bool) (cs : list call) (s : Store) :
    list string :=
  match cs with
  | [] => []
  | c :: cs' =>
      insertion serialize c s
        ++ insertions serialize equals cs' (perform serialize equals c s)
  end.

(** The number of entries at the front of a map before the first entry
    whose key is [undefined]. *)
Fixpoint definedPrefix {K V : Type} (undef : K → bool) (m : JsMap.t K V) :
    nat :=
  match m with
  | [] => 0
  | (k, _) :: m' => if undef k then 0 else S (definedPrefix undef m')
  end.

(** Two records agree on the fields that are neither [undefined] nor named
    [__proto__]. *)
Definition agree_defined_plain (q1 q2 : Obj.t) : Prop :=
  ∀ k v, k ≠ "__proto__"%string → v ≠ VUndefined →
    (Obj.lookup k q1 = Some v ↔ Obj.lookup k q2 = Some v).

(** A record whose defined fields are in sorted order:
    [{a: 1, b: undefined, c: 'x'}]. *)
Definition sortedRecord : Obj.t :=
  [("a"%string, VNum 1); ("b"%string, VUndefined); ("c"%string, VStr "x")].

(** * Properties *)

Lemma is_undefined_true v : is_undefined v = true ↔ v = VUndefined.
Proof. destruct v; simpl; split; intros; congruence. Qed.

Lemma is_undefined_false v : is_undefined v = false ↔ v ≠ VUndefined.
Proof. destruct v; simpl; split; intros; congruence. Qed.

(** ** The order on property names *)

Lemma key_le_iff a b : key_le a b ↔ a = b ∨ String_as_OT.lt a b.
Proof.
  unfold key_le, String.leb.
  pose proof (String_as_OT.cmp_eq a b) as Heq.
  pose proof (String_as_OT.cmp_lt a b) as Hlt.
  unfold String_as_OT.cmp in *.
  destruct (String.compare a b) eqn:E; split; intros H.
  - left. by apply Heq.
  - done.
  - right. by apply Hlt.
  - done.
  - done.
  - destruct H as [H|H].
    + apply Heq in H. congruence.
    + apply Hlt in H. congruence.
Qed.

#[global] Instance key_le_total : Total key_le.
Proof. intros a b. apply String.leb_total. Qed.

#[global] Instance key_le_antisymm : AntiSymm (=) key_le.
Proof. intros a b. apply String.leb_antisym. Qed.

#[global] Instance key_le_trans : Transitive key_le.
Proof.
  intros a b c. rewrite !key_le_iff.
  intros [->|Hab] [->|Hbc]; eauto.
  right. by eapply String_as_OT.lt_trans.
Qed.

Lemma sort_keys_unique l1 l2 : l1 ≡ₚ l2 → sort_keys l1 = sort_keys l2.
Proof.
  intros Hp. unfold sort_keys.
  apply (Sorted_unique key_le).
  - apply (Sorted_merge_sort key_le).
  - apply (Sorted_merge_sort key_le).
  - by rewrite !merge_sort_Permutation.
Qed.

(** ** Plain objects: lookups, names and well-formedness *)

Lemma lookup_None_keys k o : Obj.lookup k o = None ↔ k ∉ Obj.keys o.
Proof.
  induction o as [|[k' v] o IH]; simpl.
  - split; [intros _; apply not_elem_of_nil | done].
  - destruct (decide (k = k')) as [->|Hne].
    + split; [done | intros Hk; exfalso; apply Hk; left].
    + rewrite IH, not_elem_of_cons. tauto.
Qed.

Lemma has_false_keys k o : Obj.has k o = false ↔ k ∉ Obj.keys o.
Proof.
  unfold Obj.has. rewrite <- lookup_None_keys.
  destruct (Obj.lookup k o); naive_solver.
Qed.

Lemma lookup_update k v k' o :
  Obj.has k o = true →
  Obj.lookup k' (Obj.update k v o) =
    if decide (k' = k) then Some v else Obj.lookup k' o.
Proof.
  unfold Obj.has.
  induction o as [|[k0 v0] o IH]; simpl; [done|].
  destruct (decide (k = k0)) as [->|Hne]; simpl.
  - intros _. repeat case_decide; congruence.
  - intros H. specialize (IH H).
    destruct (decide (k' = k0)) as [->|Hne'].
    + by rewrite decide_False by congruence.
    + done.
Qed.

Lemma keys_update k v o : Obj.keys (Obj.update k v o) = Obj.keys o.
Proof.
  unfold Obj.keys.
  induction o as [|[k0 v0] o IH]; simpl; [done|].
  destruct (decide (k = k0)); csimpl; [done | by f_equal].
Qed.

Lemma lookup_insert_index i k v k' o :
  Obj.lookup k o = None →
  Obj.lookup k' (Obj.insert_index i k v o) =
    if decide (k' = k) then Some v else Obj.lookup k' o.
Proof.
  induction o as [|[k0 v0] o IH]; simpl; [done|].
  destruct (decide (k = k0)) as [->|Hne]; [done|].
  intros Hk. specialize (IH Hk).
  destruct (Obj.array_index k0) as [j|]; [destruct (j <? i)%N|]; simpl;
    try done.
  rewrite IH. repeat case_decide; congruence.
Qed.

Lemma keys_insert_index i k v o :
  Obj.keys (Obj.insert_index i k v o) ≡ₚ k :: Obj.keys o.
Proof.
  unfold Obj.keys.
  induction o as [|[k0 v0] o IH]; simpl; [done|].
  destruct (Obj.array_index k0) as [j|]; [destruct (j <? i)%N|]; simpl;
    try done.
  rewrite IH. apply Permutation_swap.
Qed.

Lemma lookup_snoc k v k' o :
  Obj.lookup k o = None →
  Obj.lookup k' (o ++ [(k, v)]) =
    if decide (k' = k) then Some v else Obj.lookup k' o.
Proof.
  induction o as [|[k0 v0] o IH]; simpl; [done|].
  destruct (decide (k = k0)) as [->|Hne]; [done|].
  intros Hk. rewrite (IH Hk). repeat case_decide; congruence.
Qed.

Lemma lookup_define k v k' o :
  Obj.lookup k' (Obj.define k v o) =
    if decide (k' = k) then Some v else Obj.lookup k' o.
Proof.
  unfold Obj.define. destruct (Obj.has k o) eqn:Hhas.
  - by apply lookup_update.
  - assert (Obj.lookup k o = None) as Hk.
    { unfold Obj.has in Hhas. by destruct (Obj.lookup k o). }
    destruct (Obj.array_index k).
    + by apply lookup_insert_index.
    + by apply lookup_snoc.
Qed.

Lemma keys_define k v o :
  Obj.keys (Obj.define k v o) ≡ₚ
    if Obj.has k o then Obj.keys o else k :: Obj.keys o.
Proof.
  unfold Obj.define. destruct (Obj.has k o).
  - by rewrite keys_update.
  - destruct (Obj.array_index k).
    + apply keys_insert_index.
    + unfold Obj.keys. rewrite fmap_app. simpl.
      by rewrite Permutation_app_comm.
Qed.

Lemma wf_define k v o : Obj.wf o → Obj.wf (Obj.define k v o).
Proof.
  unfold Obj.wf. intros Hwf. rewrite keys_define.
  destruct (Obj.has k o) eqn:Hhas; [done|].
  apply NoDup_cons. split; [|done]. by apply has_false_keys.
Qed.

Lemma wf_copy src dst : Obj.wf dst → Obj.wf (Obj.copy src dst).
Proof.
  unfold Obj.copy. revert dst.
  induction src as [|[k v] src IH]; simpl; intros dst Hwf; [done|].
  apply IH. by apply wf_define.
Qed.

Lemma wf_spread a b : Obj.wf (Obj.spread a b).
Proof. unfold Obj.spread. do 2 apply wf_copy. apply NoDup_nil_2. Qed.

Lemma lookup_copy k src dst :
  Obj.wf src →
  Obj.lookup k (Obj.copy src dst) =
    match Obj.lookup k src with
    | Some v => Some v
    | None => Obj.lookup k dst
    end.
Proof.
  unfold Obj.copy, Obj.wf, Obj.keys. revert dst.
  induction src as [|[k0 v0] src IH]; simpl; intros dst Hwf; [done|].
  apply NoDup_cons in Hwf as [Hk0 Hwf].
  rewrite (IH _ Hwf), lookup_define.
  destruct (decide (k = k0)) as [->|Hne]; [|done].
  apply lookup_None_keys in Hk0. by rewrite Hk0.
Qed.

(** A shallow merge: a name of [b] takes the value [b] gives it, even
    [undefined]; any other name keeps the value it has in [a]. *)
Lemma lookup_spread k a b :
  Obj.wf a → Obj.wf b →
  Obj.lookup k (Obj.spread a b) =
    match Obj.lookup k b with
    | Some v => Some v
    | None => Obj.lookup k a
    end.
Proof.
  intros Ha Hb. unfold Obj.spread.
  rewrite (lookup_copy _ _ _ Hb), (lookup_copy _ _ _ Ha). simpl.
  by destruct (Obj.lookup k b), (Obj.lookup k a).
Qed.

(** ** The cache key does not depend on order or on [undefined] fields *)

Lemma keys_omitBy_incl k o p : k ∈ Obj.keys (omitBy o p) → k ∈ Obj.keys o.
Proof.
  unfold Obj.keys, omitBy. rewrite !list_elem_of_fmap.
  intros [kv [-> Hin]]. exists kv. split; [done|].
  apply list_elem_of_In, filter_In in Hin as [Hin _].
  by apply list_elem_of_In.
Qed.

Lemma wf_omitBy o p : Obj.wf o → Obj.wf (omitBy o p).
Proof.
  unfold Obj.wf. induction o as [|[k v] o IH]; simpl; intros Hwf; [done|].
  apply NoDup_cons in Hwf as [Hk Hwf].
  destruct (negb (p v)); simpl; [|auto].
  apply NoDup_cons. split; [|auto].
  intros Hin. apply Hk. by eapply keys_omitBy_incl.
Qed.

Lemma lookup_omitBy k o p :
  Obj.wf o →
  Obj.lookup k (omitBy o p) =
    match Obj.lookup k o with
    | Some v => if p v then None else Some v
    | None => None
    end.
Proof.
  unfold Obj.wf. induction o as [|[k0 v0] o IH]; simpl; intros Hwf; [done|].
  apply NoDup_cons in Hwf as [Hk0 Hwf]. specialize (IH Hwf).
  destruct (decide (k = k0)) as [->|Hne].
  - destruct (p v0); simpl.
    + apply lookup_None_keys. intros Hin. apply Hk0.
      by eapply keys_omitBy_incl.
    + by rewrite decide_True.
  - destruct (p v0); simpl; [done|]. by rewrite decide_False.
Qed.

Lemma lookup_omitBy_agree q1 q2 k :
  Obj.wf q1 → Obj.wf q2 → agree_defined q1 q2 →
  Obj.lookup k (omitBy q1 is_undefined) = Obj.lookup k (omitBy q2 is_undefined).
Proof.
  intros Hwf1 Hwf2 Hagree.
  rewrite (lookup_omitBy _ _ _ Hwf1), (lookup_omitBy _ _ _ Hwf2).
  destruct (Obj.lookup k q1) as [v1|] eqn:E1.
  - destruct (is_undefined v1) eqn:U1.
    + destruct (Obj.lookup k q2) as [v2|] eqn:E2; [|done].
      destruct (is_undefined v2) eqn:U2; [done|].
      apply is_undefined_false in U2.
      apply (Hagree k v2 U2) in E2.
      apply is_undefined_true in U1. congruence.
    + apply is_undefined_false in U1.
      apply (Hagree k v1 U1) in E1. rewrite E1.
      by apply is_undefined_false in U1 as ->.
  - destruct (Obj.lookup k q2) as [v2|] eqn:E2; [|done].
    destruct (is_undefined v2) eqn:U2; [done|].
    apply is_undefined_false in U2.
    apply (Hagree k v2 U2) in E2. congruence.
Qed.

Lemma keys_Permutation_lookup o1 o2 :
  Obj.wf o1 → Obj.wf o2 →
  (∀ k, Obj.lookup k o1 = Obj.lookup k o2) →
  Obj.keys o1 ≡ₚ Obj.keys o2.
Proof.
  intros Hwf1 Hwf2 Hl. apply NoDup_Permutation; [done..|].
  intros k.
  destruct (decide (k ∈ Obj.keys o1)) as [H1|H1],
           (decide (k ∈ Obj.keys o2)) as [H2|H2]; try tauto; exfalso.
  - apply lookup_None_keys in H2. rewrite <- Hl in H2.
    by apply lookup_None_keys in H2.
  - apply lookup_None_keys in H1. rewrite Hl in H1.
    by apply lookup_None_keys in H1.
Qed.

Lemma sortedCopy_ext f1 f2 :
  Obj.wf f1 → Obj.wf f2 →
  (∀ k, Obj.lookup k f1 = Obj.lookup k f2) →
  sortedCopy f1 = sortedCopy f2.
Proof.
  intros Hwf1 Hwf2 Hl. unfold sortedCopy.
  rewrite (sort_keys_unique _ _ (keys_Permutation_lookup _ _ Hwf1 Hwf2 Hl)).
  assert (∀ k, Obj.get k f1 = Obj.get k f2) as Hg.
  { intros k. unfold Obj.get. by rewrite Hl. }
  generalize (sort_keys (Obj.keys f2)) (@nil (string * value)).
  intros names. induction names as [|k names IH]; intros acc; simpl; [done|].
  rewrite Hg. apply IH.
Qed.

Lemma serializeObject_agree serialize q1 q2 :
  Obj.wf q1 → Obj.wf q2 → agree_defined q1 q2 →
  serializeObject serialize q1 true = serializeObject serialize q2 true.
Proof.
  intros Hwf1 Hwf2 Hagree. unfold serializeObject. simpl. f_equal.
  apply sortedCopy_ext; [by apply wf_omitBy..|].
  intros k. by apply lookup_omitBy_agree.
Qed.

(** What the record handed to the serializer holds: the defined fields of
    the query, and, when no name is an array index, in sorted order. *)

Lemma sortedCopy_fold_keys (f : Obj.t) names acc :
  NoDup (Obj.keys acc ++ names) →
  Forall plain_name names →
  Obj.keys (fold_left (λ acc key, Obj.assign key (Obj.get key f) acc) names acc)
    = Obj.keys acc ++ names.
Proof.
  revert acc. induction names as [|k names IH]; simpl; intros acc Hnd Hplain.
  - by rewrite app_nil_r.
  - apply Forall_cons in Hplain as [[Hidx Hproto] Hplain].
    assert (Obj.has k acc = false) as Hhas.
    { apply has_false_keys. apply NoDup_app in Hnd as (_ & Hdisj & _).
      intros Hin. apply (Hdisj _ Hin). left. }
    unfold Obj.assign, Obj.define.
    rewrite decide_False, Hhas, Hidx by done.
    rewrite IH; [| |done].
    + unfold Obj.keys. rewrite fmap_app. simpl. by rewrite <- app_assoc.
    + unfold Obj.keys. rewrite fmap_app. simpl. by rewrite <- app_assoc.
Qed.

Lemma sortedCopy_keys f :
  Obj.wf f → Forall plain_name (Obj.keys f) →
  Obj.keys (sortedCopy f) = sort_keys (Obj.keys f).
Proof.
  intros Hwf Hplain. unfold sortedCopy.
  rewrite sortedCopy_fold_keys; [done| |].
  - simpl. unfold sort_keys. by rewrite merge_sort_Permutation.
  - unfold sort_keys. by rewrite merge_sort_Permutation.
Qed.

Lemma sortedCopy_fold_lookup (f : Obj.t) k names acc :
  Obj.lookup k
    (fold_left (λ acc key, Obj.assign key (Obj.get key f) acc) names acc)
  = if decide (k ∈ names ∧ k ≠ "__proto__"%string) then Some (Obj.get k f)
    else Obj.lookup k acc.
Proof.
  revert acc. induction names as [|k0 names IH]; cbn [fold_left]; intros acc.
  - rewrite decide_False; [done|]. intros [Hin _]. by apply elem_of_nil in Hin.
  - rewrite IH. unfold Obj.assign.
    destruct (decide (k ∈ names ∧ k ≠ "__proto__"%string)) as [[Hin Hp]|Hn].
    + rewrite decide_True; [done|]. split; [by right|done].
    + destruct (decide (k0 = "__proto__"%string)) as [->|Hp0].
      * destruct (decide (k ∈ "__proto__"%string :: names ∧ _)) as [[Hin Hp]|];
          [|done].
        exfalso. apply Hn. split; [|done].
        apply elem_of_cons in Hin as [->|Hin]; done.
      * rewrite lookup_define.
        destruct (decide (k = k0)) as [->|Hne].
        -- rewrite decide_True; [done|]. split; [left|done].
        -- rewrite decide_False; [done|]. intros [Hin Hp]. apply Hn.
           split; [|done]. apply elem_of_cons in Hin as [->|Hin]; done.
Qed.

Lemma sortedCopy_lookup f k :
  k ≠ "__proto__"%string →
  Obj.lookup k (sortedCopy f) = Obj.lookup k f.
Proof.
  intros Hp. unfold sortedCopy. rewrite sortedCopy_fold_lookup.
  unfold sort_keys.
  destruct (decide (k ∈ merge_sort key_le (Obj.keys f) ∧ _)) as [[Hin _]|Hn].
  - rewrite merge_sort_Permutation in Hin. unfold Obj.get.
    destruct (Obj.lookup k f) eqn:E; [done|].
    by apply lookup_None_keys in E.
  - symmetry. apply lookup_None_keys. intros Hin. apply Hn.
    split; [|done]. by rewrite merge_sort_Permutation.
Qed.


(** ** What each method computes *)

Section Runs.
Variable serialize : Obj.t → option string.
Variable equals : State → State → bool.

Lemma getCacheKey_run s :
  getCacheKey serialize s = (keyOutcome (currentKey serialize s), s).
Proof.
  unfold_methods. unfold currentKey, stateOf. simpl.
  by destruct (serializeObject _ _ _).
Qed.

Lemma getCachedResult_run s :
  getCachedResult serialize s =
    if useCaching s then
      match currentKey serialize s with
      | Some key => (Returned (JsMap.get key (cache s)), s)
      | None => (Thrown, s)
      end
    else (Returned None, s).
Proof.
  unfold getCachedResult, mbind, M_bind. unfold read at 1.
  destruct (useCaching s); simpl; [|done].
  rewrite getCacheKey_run. destruct (currentKey serialize s) as [key|]; simpl; [|done].
  unfold read, mret, M_ret, JsMap.has. by destruct (JsMap.get key (cache s)).
Qed.

Lemma cacheResult_run r s :
  cacheResult serialize r s =
    if useCaching s then
      match currentKey serialize s with
      | Some key =>
          (Returned (),
           withCache (λ c, JsMap.set key r (evicted (cacheLimit s) c)) s)
      | None => (Thrown, withCache (evicted (cacheLimit s)) s)
      end
    else (Returned (), s).
Proof.
  unfold_methods. unfold evicted, withCache, currentKey, stateOf.
  destruct s as [sub c caching limit]; simpl.
  destruct caching; simpl; [|done].
  destruct (Z.of_nat (JsMap.size c) >=? Z.abs limit)%Z; simpl;
    by destruct (serializeObject _ _ _).
Qed.

Lemma setState_run p s :
  setState equals p s =
    (Returned (),
     withSubject (StateSubject.update equals (mergeState (stateOf s) p)) s).
Proof. done. Qed.

Lemma setQuery_run q s :
  setQuery equals q s =
    (Returned (),
     withSubject
       (StateSubject.update equals
          {| query := Obj.spread (query (stateOf s)) q;
             result := result (stateOf s);
             transient := transient (stateOf s) |}) s).
Proof. done. Qed.

Lemma setTransient_run t s :
  setTransient equals t s =
    (Returned (),
     withSubject
       (StateSubject.update equals
          {| query := query (stateOf s);
             result := result (stateOf s);
             transient := Obj.spread (transient (stateOf s)) t |}) s).
Proof. done. Qed.

Lemma setResult_run r s :
  setResult serialize equals r s =
    if useCaching s then
      match currentKey serialize s with
      | Some key =>
          (Returned (),
           withSubject (commitResult equals (stateOf s) r)
             (withCache
                (λ c, JsMap.set key (Obj.spread (result (stateOf s)) r)
                        (evicted (cacheLimit s) c)) s))
      | None => (Thrown, withCache (evicted (cacheLimit s)) s)
      end
    else (Returned (), withSubject (commitResult equals (stateOf s) r) s).
Proof.
  unfold setResult, mbind, M_bind. unfold getState at 1, read at 1. simpl.
  fold (stateOf s).
  rewrite cacheResult_run.
  destruct (useCaching s); [destruct (currentKey serialize s)|]; simpl; done.
Qed.

End Runs.

(** Names that are array indices are enumerated first, in numeric order,
    whatever the order in which they were assigned: the record built from
    the sorted names ["10"; "9"; "a"] is enumerated as ["9"; "10"; "a"]. *)
Lemma sortedCopy_index_names :
  sort_keys ["a"; "9"; "10"]%string = ["10"; "9"; "a"]%string
  ∧ Obj.keys (sortedCopy [("a"%string, VNum 1); ("9"%string, VNum 2);
                          ("10"%string, VNum 3)])
    = ["9"; "10"; "a"]%string.
Proof. split; reflexivity. Qed.

(** C3. Two stores whose queries agree on every field that is not
    [undefined], in whatever order the fields are and whichever fields are
    present with the value [undefined], get the same cache key (or the same
    exception from the serializer): [getCacheKey] drops the [undefined]
    fields, sorts the remaining names and serializes the record built from
    them.  That record has the fields of the query that are not [undefined],
    with their values, and (array indices apart) enumerates them in sorted
    order.  In particular [{page: 1, q: undefined}], [{page: 1}] and
    [{q: undefined, page: 1}] have one and the same key. *)
Theorem getCacheKey_agree serialize (s1 s2 : Store) :
  Obj.wf (query (stateOf s1)) →
  Obj.wf (query (stateOf s2)) →
  agree_defined (query (stateOf s1)) (query (stateOf s2)) →
  (getCacheKey serialize s1).1 = (getCacheKey serialize s2).1
  ∧ (getCacheKey serialize s1).1 =
      keyOutcome
        (serialize (sortedCopy (omitBy (query (stateOf s1)) is_undefined)))
  ∧ (∀ k, k ≠ "__proto__"%string →
       Obj.lookup k (sortedCopy (omitBy (query (stateOf s1)) is_undefined)) =
         match Obj.lookup k (query (stateOf s1)) with
         | Some v => if is_undefined v then None else Some v
         | None => None
         end)
  ∧ (Forall plain_name (Obj.keys (omitBy (query (stateOf s1)) is_undefined)) →
       Obj.keys (sortedCopy (omitBy (query (stateOf s1)) is_undefined)) =
         sort_keys (Obj.keys (omitBy (query (stateOf s1)) is_undefined)))
  ∧ (getCacheKey serialize (storeWithQuery query_page_q)).1
      = (getCacheKey serialize (storeWithQuery query_page)).1
  ∧ (getCacheKey serialize (storeWithQuery query_page)).1
      = (getCacheKey serialize (storeWithQuery query_q_page)).1.
Proof.
  intros Hwf1 Hwf2 Hagree.
  pose proof (serializeObject_agree serialize _ _ Hwf1 Hwf2 Hagree) as Hkey.
  rewrite !getCacheKey_run. unfold currentKey. simpl.
  split; [by rewrite Hkey|]. split; [done|].
  split; [intros k Hk; by rewrite sortedCopy_lookup, lookup_omitBy|].
  split; [intros Hplain; apply sortedCopy_keys; [by apply wf_omitBy|done]|].
  split; reflexivity.
Qed.

Lemma getCacheKey_agree_witness :
  Obj.wf query_page_q ∧ Obj.wf query_q_page ∧
  agree_defined query_page_q query_q_page ∧
  (getCacheKey Json.serialize (storeWithQuery query_page_q)).1
    = (getCacheKey Json.serialize (storeWithQuery query_q_page)).1.
Proof.
  assert (Obj.wf query_page_q) as H1 by solve_wf.
  assert (Obj.wf query_q_page) as H2 by solve_wf.
  assert (agree_defined query_page_q query_q_page) as H3.
  { intros k v Hv. unfold query_page_q, query_q_page. simpl.
    repeat case_decide; subst; split; intros; simplify_eq; done. }
  split; [exact H1|]. split; [exact H2|]. split; [exact H3|].
  exact (proj1 (getCacheKey_agree Json.serialize
    (storeWithQuery query_page_q) (storeWithQuery query_q_page) H1 H2 H3)).
Defined.

(** ** Insertion-ordered maps *)

Section JsMapFacts.
Context {K V : Type} `{EqDecision K}.
Implicit Types (m : JsMap.t K V) (k : K) (v : V).

Lemma get_None_keys k m : JsMap.get k m = None ↔ k ∉ JsMap.keys m.
Proof.
  unfold JsMap.keys. induction m as [|[k' v] m IH]; simpl.
  - split; [intros _; apply not_elem_of_nil | done].
  - destruct (decide (k = k')) as [->|Hne].
    + split; [done | intros Hk; exfalso; apply Hk; left].
    + rewrite IH, not_elem_of_cons. tauto.
Qed.

Lemma has_true_keys k m : JsMap.has k m = true ↔ k ∈ JsMap.keys m.
Proof.
  unfold JsMap.has. pose proof (get_None_keys k m) as Hn.
  destruct (JsMap.get k m); split; intros Hk; try done.
  - destruct (decide (k ∈ JsMap.keys m)) as [|Hnin]; [done|].
    apply Hn in Hnin. done.
  - exfalso. by apply Hn.
Qed.

Lemma get_set k v k' m :
  JsMap.get k' (JsMap.set k v m) =
    if decide (k' = k) then Some v else JsMap.get k' m.
Proof.
  induction m as [|[k0 v0] m IH]; simpl.
  - by destruct (decide (k' = k)).
  - destruct (decide (k = k0)) as [->|Hne]; simpl.
    + by destruct (decide (k' = k0)).
    + rewrite IH. destruct (decide (k' = k0)) as [->|Hne'].
      * by rewrite decide_False by congruence.
      * done.
Qed.

Lemma keys_set k v m :
  JsMap.keys (JsMap.set k v m) =
    if JsMap.has k m then JsMap.keys m else JsMap.keys m ++ [k].
Proof.
  unfold JsMap.keys, JsMap.has.
  induction m as [|[k0 v0] m IH]; simpl; [done|].
  destruct (decide (k = k0)) as [->|Hne]; csimpl; [done|].
  rewrite IH. by destruct (JsMap.get k m).
Qed.

Lemma size_set k v m :
  JsMap.size (JsMap.set k v m) =
    if JsMap.has k m then JsMap.size m else S (JsMap.size m).
Proof.
  unfold JsMap.size.
  rewrite <- (length_fmap fst (JsMap.set k v m)), <- (length_fmap fst m).
  fold (JsMap.keys (JsMap.set k v m)). fold (JsMap.keys m).
  rewrite keys_set. destruct (JsMap.has k m); [done|].
  rewrite length_app. simpl. lia.
Qed.

Lemma wf_set k v m : JsMap.wf m → JsMap.wf (JsMap.set k v m).
Proof.
  unfold JsMap.wf. intros Hwf. fold (JsMap.keys (JsMap.set k v m)).
  rewrite keys_set. destruct (JsMap.has k m) eqn:Hhas; [done|].
  apply NoDup_app. split; [done|]. split; [|apply NoDup_singleton].
  intros x Hx Hx'. apply list_elem_of_singleton in Hx'. subst x.
  apply has_true_keys in Hx. congruence.
Qed.

Lemma wf_tail m : JsMap.wf m → JsMap.wf (tail m).
Proof.
  unfold JsMap.wf. destruct m as [|[k v] m]; simpl; [done|].
  intros Hwf. by apply NoDup_cons in Hwf as [_ ?].
Qed.

(** Without [undefined] keys the oldest entry is the head of the list. *)
Lemma removeOldestEntry_defined (undef : K → bool) m :
  (∀ k, undef k = false) → removeOldestEntry undef m = tail m.
Proof.
  intros Hdef. unfold removeOldestEntry, JsMap.first_key, JsMap.keys.
  destruct m as [|[k v] m]; simpl; [done|].
  by rewrite Hdef, decide_True.
Qed.

End JsMapFacts.

(** C8. [removeOldestEntry] removes at most one entry.  On a map that is
    not empty and whose earliest-inserted key is not [undefined] it deletes
    exactly that entry: the remaining entries are the later ones, unchanged
    and in their order, and the key is no longer in the map.  On an empty
    map, and on a map whose earliest key is [undefined], it returns the map
    as it is.  It is a total function: nothing is thrown. *)
Theorem removeOldestEntry_spec {K V : Type} `{EqDecision K}
    (undef : K → bool) (m : JsMap.t K V) :
  JsMap.wf m →
  match m with
  | [] => removeOldestEntry undef m = []
  | (k, v) :: rest =>
      if undef k then removeOldestEntry undef m = m
      else
        removeOldestEntry undef m = rest
        ∧ JsMap.has k (removeOldestEntry undef m) = false
        ∧ (∀ k', k' ≠ k →
             JsMap.get k' (removeOldestEntry undef m) = JsMap.get k' m)
        ∧ S (JsMap.size (removeOldestEntry undef m)) = JsMap.size m
  end
  ∧ JsMap.size m - JsMap.size (removeOldestEntry undef m) ≤ 1
  ∧ JsMap.wf (removeOldestEntry undef m).
Proof.
  intros Hwf. unfold removeOldestEntry, JsMap.first_key, JsMap.keys.
  destruct m as [|[k v] rest]; simpl.
  - split; [done|]. split; [lia|done].
  - destruct (undef k) eqn:Hk; simpl.
    + split; [done|]. split; [lia|done].
    + rewrite decide_True by done.
      assert (JsMap.wf rest) as Hrest by apply (wf_tail _ Hwf).
      split; [|split; [lia|done]].
      split; [done|]. split; [|split; [|done]].
      * apply NoDup_cons in Hwf as [Hnin _]. simpl in Hnin.
        apply get_None_keys in Hnin. unfold JsMap.has. by rewrite Hnin.
      * intros k' Hne. by rewrite decide_False.
Qed.

Lemma removeOldestEntry_spec_witness :
  let m : JsMap.t string Z := [("a"%string, 1%Z); ("b"%string, 2%Z)] in
  JsMap.wf m ∧ removeOldestEntry (λ _, false) m = [("b"%string, 2%Z)].
Proof.
  intros m.
  assert (JsMap.wf m) as Hwf.
  { unfold JsMap.wf.
    match goal with |- ?P => apply (@bool_decide_unpack P _) end.
    vm_compute. exact I. }
  split; [exact Hwf|].
  exact (proj1 (proj1 (removeOldestEntry_spec (λ _, false) m Hwf))).
Defined.

(** ** The capacity of the cache *)

(** C1 (the code at [cacheLimit = 0]). With the limit set to 0 and caching
    enabled, the first [cacheResult] finds the empty cache at capacity,
    evicts nothing and stores its entry: the cache then holds one entry,
    more than the absolute value of the limit. *)
Theorem cacheLimit_zero_overflow :
  cacheSize zeroLimitStore = 0%Z
  ∧ Z.abs (cacheLimit zeroLimitStore) = 0%Z
  ∧ let s := performJson [CacheResult (itemsResult "A")] zeroLimitStore in
    JsMap.keys (cache s) = [pageKey 1]
    ∧ (cacheSize s > Z.abs (cacheLimit s))%Z.
Proof. vm_compute. repeat split. Qed.

Section Capacity.
Variable serialize : Obj.t → option string.
Variable equals : State → State → bool.

Lemma size_tail {A : Type} (l : list A) : length (tail l) = pred (length l).
Proof. by destruct l. Qed.

Lemma evicted_cases limit (c : JsMap.t string Obj.t) :
  ((Z.of_nat (JsMap.size c) < Z.abs limit)%Z ∧ evicted limit c = c)
  ∨ ((Z.abs limit ≤ Z.of_nat (JsMap.size c))%Z ∧ evicted limit c = tail c).
Proof.
  unfold evicted.
  destruct (Z.of_nat (JsMap.size c) >=? Z.abs limit)%Z eqn:E.
  - right. split; [lia|]. by apply removeOldestEntry_defined.
  - left. split; [lia|done].
Qed.

Lemma size_evicted limit (c : JsMap.t string Obj.t) :
  JsMap.size (evicted limit c) ≤ JsMap.size c.
Proof.
  destruct (evicted_cases limit c) as [[_ ->]|[_ ->]]; [done|].
  unfold JsMap.size. rewrite size_tail. lia.
Qed.

Lemma size_stored limit key r (c : JsMap.t string Obj.t) :
  (1 ≤ Z.abs limit)%Z →
  (Z.of_nat (JsMap.size c) ≤ Z.abs limit)%Z →
  (Z.of_nat (JsMap.size (JsMap.set key r (evicted limit c))) ≤ Z.abs limit)%Z.
Proof.
  intros Hpos Hb. rewrite size_set.
  destruct (evicted_cases limit c) as [[Hlt ->]|[Hge ->]].
  - destruct (JsMap.has key c); lia.
  - unfold JsMap.size in *. rewrite size_tail.
    destruct (JsMap.has key (tail c)); lia.
Qed.

Lemma perform_cacheLimit c s :
  cacheLimit (perform serialize equals c s) = cacheLimit s.
Proof.
  destruct c; simpl; try done.
  - rewrite setResult_run. simpl.
    by destruct (useCaching s); [destruct (currentKey serialize s)|].
  - rewrite getCacheKey_run. done.
  - rewrite getCachedResult_run.
    by destruct (useCaching s); [destruct (currentKey serialize s)|].
  - rewrite cacheResult_run.
    by destruct (useCaching s); [destruct (currentKey serialize s)|].
Qed.

Lemma perform_bounded c s :
  (1 ≤ Z.abs (cacheLimit s))%Z → bounded s →
  bounded (perform serialize equals c s).
Proof.
  intros Hpos Hb. unfold bounded. rewrite perform_cacheLimit.
  unfold bounded, cacheSize in *.
  destruct c; simpl; try done.
  - rewrite setResult_run. simpl.
    destruct (useCaching s); [destruct (currentKey serialize s)|]; simpl;
      [by apply size_stored| |done].
    pose proof (size_evicted (cacheLimit s) (cache s)). lia.
  - rewrite getCacheKey_run. done.
  - rewrite getCachedResult_run.
    by destruct (useCaching s); [destruct (currentKey serialize s)|].
  - rewrite cacheResult_run.
    destruct (useCaching s); [destruct (currentKey serialize s)|]; simpl;
      [by apply size_stored| |done].
    pose proof (size_evicted (cacheLimit s) (cache s)). lia.
Qed.

Lemma wf_evicted limit (c : JsMap.t string Obj.t) :
  JsMap.wf c → JsMap.wf (evicted limit c).
Proof.
  intros Hwf. destruct (evicted_cases limit c) as [[_ ->]|[_ ->]]; [done|].
  by apply wf_tail.
Qed.

(** The keys of the cache stay unique under every call. *)
Lemma perform_wf c s :
  JsMap.wf (cache s) → JsMap.wf (cache (perform serialize equals c s)).
Proof.
  intros Hwf. destruct c as [q| |r| |t| | | |r|b]; simpl; try done.
  - rewrite setResult_run.
    destruct (useCaching s); [destruct (currentKey serialize s)|]; simpl;
      [by apply wf_set, wf_evicted|by apply wf_evicted|done].
  - by rewrite getCacheKey_run.
  - rewrite getCachedResult_run.
    by destruct (useCaching s); [destruct (currentKey serialize s)|].
  - rewrite cacheResult_run.
    destruct (useCaching s); [destruct (currentKey serialize s)|]; simpl;
      [by apply wf_set, wf_evicted|by apply wf_evicted|done].
Qed.

Lemma performAll_wf cs s :
  JsMap.wf (cache s) → JsMap.wf (cache (performAll serialize equals cs s)).
Proof.
  unfold performAll. revert s.
  induction cs as [|c cs IH]; simpl; intros s Hwf; [done|].
  by apply IH, perform_wf.
Qed.

(** With a limit other than 0, no sequence of calls takes the cache above
    the absolute value of the limit, and an insertion into a full cache
    first drops exactly the earliest-inserted entry. *)
Lemma cache_bounded_nonzero_limit (cs : list call) (s : Store) :
  (1 ≤ Z.abs (cacheLimit s))%Z → bounded s →
  bounded (performAll serialize equals cs s)
  ∧ cacheLimit (performAll serialize equals cs s) = cacheLimit s.
Proof.
  unfold performAll. revert s.
  induction cs as [|c cs IH]; simpl; intros s Hpos Hb; [done|].
  destruct (IH (perform serialize equals c s)) as [IH1 IH2].
  - by rewrite perform_cacheLimit.
  - by apply perform_bounded.
  - split; [done|]. by rewrite IH2, perform_cacheLimit.
Qed.

(** In particular a new store, whose limit is 100, never caches more than
    100 results. *)
Lemma cache_bounded_new_store (cs : list call) (initial : State) :
  (cacheSize (performAll serialize equals cs (create initial)) ≤ 100)%Z.
Proof.
  destruct (cache_bounded_nonzero_limit cs (create initial)) as [Hb Hl];
    [simpl; lia|unfold bounded, cacheSize; simpl; lia|].
  unfold bounded in Hb. rewrite Hl in Hb. simpl in Hb. lia.
Qed.

Lemma eviction_at_capacity (r : Obj.t) (s : Store) key :
  useCaching s = true → currentKey serialize s = Some key →
  (1 ≤ Z.abs (cacheLimit s))%Z →
  (Z.abs (cacheLimit s) ≤ cacheSize s)%Z →
  ∃ oldest rest,
    cache s = oldest :: rest
    ∧ cache (cacheResult serialize r s).2 = JsMap.set key r rest.
Proof.
  intros Hc Hkey Hpos Hfull. rewrite cacheResult_run, Hc, Hkey. simpl.
  unfold cacheSize in Hfull.
  destruct (evicted_cases (cacheLimit s) (cache s)) as [[Hlt _]|[_ ->]];
    [lia|].
  destruct (cache s) as [|oldest rest]; simpl in *; [lia|].
  by exists oldest, rest.
Qed.

End Capacity.

(** ** Storing under a key that is already cached *)

(** C2 (as stated, refuted). In the cache [{K2, K3}] with limit 2, storing K2
    again evicts K2 as the oldest entry and appends it as the newest: the
    cache becomes [{K3, K2}], and the fresh key K4 then evicts K3.  So it is
    not the case that K4 evicts K2 and keeps K3. *)
Lemma reinsert_at_capacity_counterexample :
  JsMap.keys (cache limitTwoStore) = [pageKey 2; pageKey 3]
  ∧ JsMap.keys (cache afterReinsert) = [pageKey 3; pageKey 2]
  ∧ JsMap.keys (cache afterReinsert) ≠ JsMap.keys (cache limitTwoStore)
  ∧ JsMap.keys (cache afterFresh) = [pageKey 2; pageKey 4]
  ∧ ¬ (JsMap.has (pageKey 2) (cache afterFresh) = false
       ∧ JsMap.has (pageKey 3) (cache afterFresh) = true).
Proof.
  split; [by vm_compute|]. split; [by vm_compute|].
  split; [by vm_compute|]. split; [by vm_compute|].
  vm_compute. by intros [? _].
Qed.

(** C2 (amended). With caching enabled, [cacheResult] under a key that is
    already in the cache stores the new value under it.  While the cache
    holds fewer entries than the limit, nothing else changes: the keys and
    their order are the same.  In a cache at or above the limit the oldest
    entry is evicted first: when that entry is the key itself, the key comes
    back as the newest entry; otherwise the oldest entry is lost and the key
    keeps its place among the others.  In the example, storing K2 again in
    [{K2, K3}] keeps K3 and makes K2 the newest, and K4 then evicts K3. *)
Theorem cacheResult_present_key serialize (r : Obj.t) (s : Store) key :
  useCaching s = true →
  JsMap.wf (cache s) →
  serializeObject serialize (query (stateOf s)) true = Some key →
  JsMap.has key (cache s) = true →
  (cacheResult serialize r s).1 = Returned ()
  ∧ JsMap.get key (cache (cacheResult serialize r s).2) = Some r
  ∧ ((cacheSize s < Z.abs (cacheLimit s))%Z →
       JsMap.keys (cache (cacheResult serialize r s).2) = JsMap.keys (cache s)
       ∧ ∀ k, k ≠ key →
           JsMap.get k (cache (cacheResult serialize r s).2)
             = JsMap.get k (cache s))
  ∧ ((Z.abs (cacheLimit s) ≤ cacheSize s)%Z →
       JsMap.keys (cache (cacheResult serialize r s).2) =
         if decide (JsMap.first_key (cache s) = Some key)
         then tail (JsMap.keys (cache s)) ++ [key]
         else tail (JsMap.keys (cache s)))
  ∧ JsMap.keys (cache limitTwoStore) = [pageKey 2; pageKey 3]
  ∧ JsMap.keys (cache afterReinsert) = [pageKey 3; pageKey 2]
  ∧ JsMap.get (pageKey 2) (cache afterReinsert) = Some (itemsResult "r2bis")
  ∧ JsMap.keys (cache afterFresh) = [pageKey 2; pageKey 4].
Proof.
  intros Hc Hwf Hkey Hhas.
  rewrite cacheResult_run, Hc. unfold currentKey. rewrite Hkey. simpl.
  split; [done|]. split; [by rewrite get_set, decide_True|].
  split; [|split].
  - intros Hlt. unfold cacheSize in Hlt.
    destruct (evicted_cases (cacheLimit s) (cache s)) as [[_ ->]|[Hge _]];
      [|lia].
    split; [by rewrite keys_set, Hhas|].
    intros k Hne. by rewrite get_set, decide_False.
  - intros Hge. unfold cacheSize in Hge.
    destruct (evicted_cases (cacheLimit s) (cache s)) as [[Hlt _]|[_ ->]];
      [lia|].
    rewrite keys_set. unfold JsMap.first_key, JsMap.keys in *.
    destruct (cache s) as [|[k0 v0] rest]; simpl in *; [done|].
    apply NoDup_cons in Hwf as [Hk0 Hrest]. simpl in Hk0.
    destruct (decide (Some k0 = Some key)) as [[= ->]|Hne].
    + apply get_None_keys in Hk0. unfold JsMap.has. by rewrite Hk0.
    + unfold JsMap.has in *. simpl in Hhas.
      destruct (decide (key = k0)) as [->|Hne']; [done|].
      by destruct (JsMap.get key rest).
  - repeat split; by vm_compute.
Qed.

Lemma cacheResult_present_key_witness :
  useCaching limitTwoStore = true
  ∧ JsMap.wf (cache limitTwoStore)
  ∧ JsMap.has (pageKey 3) (cache limitTwoStore) = true
  ∧ JsMap.get (pageKey 3)
      (cache (cacheResult Json.serialize (itemsResult "r3bis") limitTwoStore).2)
    = Some (itemsResult "r3bis").
Proof.
  assert (useCaching limitTwoStore = true) as H1 by (by vm_compute).
  assert (JsMap.wf (cache limitTwoStore)) as H2.
  { unfold JsMap.wf.
    match goal with |- ?P => apply (@bool_decide_unpack P _) end.
    vm_compute. exact I. }
  assert (serializeObject Json.serialize (query (stateOf limitTwoStore)) true
          = Some (pageKey 3)) as H3 by (by vm_compute).
  assert (JsMap.has (pageKey 3) (cache limitTwoStore) = true) as H4
    by (by vm_compute).
  split; [exact H1|]. split; [exact H2|]. split; [exact H4|].
  exact (proj1 (proj2 (cacheResult_present_key Json.serialize
    (itemsResult "r3bis") limitTwoStore (pageKey 3) H1 H2 H3 H4))).
Defined.

(** ** The setters *)

Lemma lookup_without f k o :
  Obj.lookup k (without f o) = if decide (k = f) then None else Obj.lookup k o.
Proof.
  unfold without. induction o as [|[k0 v0] o IH]; simpl.
  - by destruct (decide (k = f)).
  - destruct (decide (k0 = f)) as [->|Hne0].
    + rewrite bool_decide_true by done. simpl. rewrite IH.
      by destruct (decide (k = f)).
    + rewrite bool_decide_false by done. simpl. rewrite IH.
      destruct (decide (k = k0)), (decide (k = f)); congruence.
Qed.

Lemma wf_without f o : Obj.wf o → Obj.wf (without f o).
Proof.
  unfold Obj.wf, Obj.keys, without.
  induction o as [|[k v] o IH]; simpl; intros Hwf; [done|].
  apply NoDup_cons in Hwf as [Hk Hwf].
  destruct (negb (bool_decide (k = f))); simpl; [|auto].
  apply NoDup_cons. split; [|auto].
  intros Hin. apply Hk. simpl.
  apply list_elem_of_fmap in Hin as [kv [-> Hin]].
  apply list_elem_of_fmap. exists kv. split; [done|].
  apply list_elem_of_In, filter_In in Hin as [Hin _].
  by apply list_elem_of_In.
Qed.

(** C6. [setQuery(q)] returns and merges [q] into the query field: a name
    of [q] takes the value [q] gives it, any other name keeps the value it
    has.  The result and the transient field, hence what [getResult] and
    [getTransient] return, are the same before and after, and so are the
    cache and its settings.  [setTransient] does the same to the transient
    field and leaves the query and the result alone. *)
Theorem setQuery_setTransient_frame equals (s : Store) (p : Obj.t) :
  Obj.wf (query (stateOf s)) →
  Obj.wf (transient (stateOf s)) →
  Obj.wf p →
  ((setQuery equals p s).1 = Returned ()
   ∧ (getQuery (setQuery equals p s).2).1
       = Returned (Obj.spread (query (stateOf s)) p)
   ∧ (∀ k, Obj.lookup k (query (stateOf (setQuery equals p s).2)) =
        match Obj.lookup k p with
        | Some v => Some v
        | None => Obj.lookup k (query (stateOf s))
        end)
   ∧ (getResult (setQuery equals p s).2).1 = (getResult s).1
   ∧ (getTransient (setQuery equals p s).2).1 = (getTransient s).1
   ∧ cache (setQuery equals p s).2 = cache s
   ∧ useCaching (setQuery equals p s).2 = useCaching s
   ∧ cacheLimit (setQuery equals p s).2 = cacheLimit s)
  ∧
  ((setTransient equals p s).1 = Returned ()
   ∧ (getTransient (setTransient equals p s).2).1
       = Returned (Obj.spread (transient (stateOf s)) p)
   ∧ (∀ k, Obj.lookup k (transient (stateOf (setTransient equals p s).2)) =
        match Obj.lookup k p with
        | Some v => Some v
        | None => Obj.lookup k (transient (stateOf s))
        end)
   ∧ (getQuery (setTransient equals p s).2).1 = (getQuery s).1
   ∧ (getResult (setTransient equals p s).2).1 = (getResult s).1
   ∧ cache (setTransient equals p s).2 = cache s
   ∧ useCaching (setTransient equals p s).2 = useCaching s
   ∧ cacheLimit (setTransient equals p s).2 = cacheLimit s).
Proof.
  intros Hq Ht Hp. rewrite setQuery_run, setTransient_run.
  unfold stateOf. simpl. split.
  - repeat split. intros k. by apply lookup_spread.
  - repeat split. intros k. by apply lookup_spread.
Qed.

Lemma setQuery_setTransient_frame_witness :
  Obj.wf (query (stateOf exampleStore))
  ∧ Obj.wf (transient (stateOf exampleStore))
  ∧ Obj.wf (pageQuery 2)
  ∧ (getResult (setQuery DeepEqual.equals (pageQuery 2) exampleStore).2).1
      = (getResult exampleStore).1.
Proof.
  assert (Obj.wf (query (stateOf exampleStore))) as H1 by solve_wf.
  assert (Obj.wf (transient (stateOf exampleStore))) as H2 by solve_wf.
  assert (Obj.wf (pageQuery 2)) as H3 by solve_wf.
  split; [exact H1|]. split; [exact H2|]. split; [exact H3|].
  exact (proj1 (proj2 (proj2 (proj2 (proj1
    (setQuery_setTransient_frame DeepEqual.equals exampleStore (pageQuery 2)
       H1 H2 H3)))))).
Defined.

(** C9. A field passed to [setQuery] with the value [undefined] is stored:
    the query then has the field, with the value [undefined], and its other
    fields are as before.  [getCacheKey] leaves that field out, so the key
    is the key of the query without the field. *)
Theorem setQuery_undefined_field serialize equals (s : Store) (f : string) :
  Obj.wf (query (stateOf s)) →
  Obj.lookup f (query (stateOf (setQuery equals [(f, VUndefined)] s).2))
    = Some VUndefined
  ∧ (∀ k, k ≠ f →
       Obj.lookup k (query (stateOf (setQuery equals [(f, VUndefined)] s).2))
         = Obj.lookup k (query (stateOf s)))
  ∧ (getCacheKey serialize (setQuery equals [(f, VUndefined)] s).2).1
      = keyOutcome
          (serializeObject serialize (without f (query (stateOf s))) true)
  ∧ (getCacheKey serialize (setQuery equals [(f, VUndefined)] s).2).1
      = (getCacheKey serialize (storeWithQuery (without f (query (stateOf s))))).1.
Proof.
  intros Hwf.
  assert (Obj.wf [(f, VUndefined)]) as Hp.
  { unfold Obj.wf. simpl. apply NoDup_singleton. }
  assert (∀ k, Obj.lookup k (Obj.spread (query (stateOf s)) [(f, VUndefined)])
             = if decide (k = f) then Some VUndefined
               else Obj.lookup k (query (stateOf s))) as Hl.
  { intros k. rewrite lookup_spread by done. simpl.
    by destruct (decide (k = f)). }
  rewrite setQuery_run, !getCacheKey_run. unfold currentKey, stateOf in *.
  simpl. split; [by rewrite Hl, decide_True|].
  split; [intros k Hne; by rewrite Hl, decide_False|].
  assert (serializeObject serialize
            (Obj.spread (query (StateSubject.current (subject s)))
               [(f, VUndefined)]) true
          = serializeObject serialize
              (without f (query (StateSubject.current (subject s)))) true)
    as ->; [|done].
  apply serializeObject_agree; [apply wf_spread|by apply wf_without|].
  intros k v Hv. rewrite Hl, lookup_without.
  destruct (decide (k = f)); [|done]. split; intros; congruence.
Qed.

Lemma setQuery_undefined_field_witness :
  Obj.wf (query (stateOf exampleStore))
  ∧ Obj.has "q" (query (stateOf exampleStore)) = true
  ∧ (getCacheKey Json.serialize
       (setQuery DeepEqual.equals [("q"%string, VUndefined)] exampleStore).2).1
    = (getCacheKey Json.serialize (storeWithQuery (pageQuery 1))).1.
Proof.
  assert (Obj.wf (query (stateOf exampleStore))) as H1 by solve_wf.
  assert (Obj.has "q" (query (stateOf exampleStore)) = true) as H2
    by reflexivity.
  split; [exact H1|]. split; [exact H2|].
  exact (proj2 (proj2 (proj2 (setQuery_undefined_field Json.serialize
    DeepEqual.equals exampleStore "q" H1)))).
Defined.

(** ** Reads *)

(** C10. [getCachedResult] and [getCacheKey] leave the store as it is: the
    state record, the cache with its entries in their order, and the two
    settings.  Calling either twice in a row gives the same outcome. *)
Theorem reads_are_pure serialize (s : Store) :
  (getCachedResult serialize s).2 = s
  ∧ (getCacheKey serialize s).2 = s
  ∧ getCachedResult serialize (getCachedResult serialize s).2
      = getCachedResult serialize s
  ∧ getCacheKey serialize (getCacheKey serialize s).2
      = getCacheKey serialize s
  ∧ getCachedResult serialize (getCacheKey serialize s).2
      = getCachedResult serialize s.
Proof.
  assert ((getCachedResult serialize s).2 = s) as H1.
  { rewrite getCachedResult_run.
    by destruct (useCaching s); [destruct (currentKey serialize s)|]. }
  assert ((getCacheKey serialize s).2 = s) as H2
    by (by rewrite getCacheKey_run).
  by rewrite H1, H2.
Qed.

(** ** Results and the cache *)

(** C4. With caching enabled, [setResult(partial)] merges [partial] into
    the result field, stores the merged result in the cache under the key
    of the query the store has at that moment, and then commits the merged
    result through [setState]; the query and the transient field are not
    touched, and [getCachedResult] right after returns the merged result.
    When the key cannot be computed the call throws before anything is
    committed.  End to end: after [setResult({items: ['A']})] on the query
    [{page: 1}], [getCachedResult()] returns [{items: ['A']}]; on the query
    [{page: 2}] it returns nothing; back on [{page: 1}] it returns
    [{items: ['A']}] again. *)
Theorem setResult_caches_merged serialize equals (s : Store) (p : Obj.t) :
  useCaching s = true →
  match serializeObject serialize (query (stateOf s)) true with
  | Some key =>
      (setResult serialize equals p s).1 = Returned ()
      ∧ (cacheResult serialize (Obj.spread (result (stateOf s)) p) s).1
          = Returned ()
      ∧ (setResult serialize equals p s).2
          = (setState equals
               {| p_query := None;
                  p_result := Some (Obj.spread (result (stateOf s)) p);
                  p_transient := None |}
               (cacheResult serialize (Obj.spread (result (stateOf s)) p) s).2).2
      ∧ cache (setResult serialize equals p s).2
          = JsMap.set key (Obj.spread (result (stateOf s)) p)
              (evicted (cacheLimit s) (cache s))
      ∧ JsMap.get key (cache (setResult serialize equals p s).2)
          = Some (Obj.spread (result (stateOf s)) p)
      ∧ (getResult (setResult serialize equals p s).2).1
          = Returned (Obj.spread (result (stateOf s)) p)
      ∧ (getQuery (setResult serialize equals p s).2).1 = (getQuery s).1
      ∧ (getTransient (setResult serialize equals p s).2).1
          = (getTransient s).1
      ∧ (getCachedResult serialize (setResult serialize equals p s).2).1
          = Returned (Some (Obj.spread (result (stateOf s)) p))
  | None =>
      (setResult serialize equals p s).1 = Thrown
      ∧ subject (setResult serialize equals p s).2 = subject s
  end
  ∧ (Obj.wf (result (stateOf s)) → Obj.wf p →
     ∀ k, Obj.lookup k (Obj.spread (result (stateOf s)) p) =
       match Obj.lookup k p with
       | Some v => Some v
       | None => Obj.lookup k (result (stateOf s))
       end)
  ∧ (getCachedResult Json.serialize pageOneStore).1
      = Returned (Some (itemsResult "A"))
  ∧ (getCachedResult Json.serialize pageTwoStore).1 = Returned None
  ∧ (getCachedResult Json.serialize pageOneAgainStore).1
      = Returned (Some (itemsResult "A")).
Proof.
  intros Hc. split; [|split; [|by vm_compute]].
  - rewrite setResult_run, cacheResult_run, Hc. unfold currentKey.
    destruct (serializeObject serialize (query (stateOf s)) true)
      as [key|] eqn:Hkey; simpl; [|done].
    repeat split.
    + by rewrite get_set, decide_True.
    + rewrite getCachedResult_run. simpl. rewrite Hc.
      unfold currentKey, stateOf in *. simpl. rewrite Hkey.
      by rewrite get_set, decide_True.
  - intros Hr Hp k. by apply lookup_spread.
Qed.

Lemma setResult_caches_merged_witness :
  useCaching pageOneStore = true
  ∧ (setResult Json.serialize DeepEqual.equals [("total"%string, VNum 1)]
       pageOneStore).1 = Returned ()
  ∧ (getCachedResult Json.serialize
       (setResult Json.serialize DeepEqual.equals [("total"%string, VNum 1)]
          pageOneStore).2).1
    = Returned (Some [("items"%string, VArr [VStr "A"]);
                      ("total"%string, VNum 1)]).
Proof.
  assert (useCaching pageOneStore = true) as H1 by reflexivity.
  split; [exact H1|].
  pose proof (proj1 (setResult_caches_merged Json.serialize DeepEqual.equals
    pageOneStore [("total"%string, VNum 1)] H1)) as H.
  split.
  - exact (proj1 H).
  - exact (proj2 (proj2 (proj2 (proj2 (proj2 (proj2 (proj2 (proj2 H)))))))).
Defined.

(** ** Caching disabled *)

Lemma perform_disabled serialize equals c s :
  useCaching s = false → c ≠ ShouldCache true →
  cache (perform serialize equals c s) = cache s
  ∧ useCaching (perform serialize equals c s) = false.
Proof.
  intros Hc Hne. destruct c as [q| |r| |t| | | |r|b]; simpl; try done.
  - by rewrite setResult_run, Hc.
  - by rewrite getCacheKey_run.
  - by rewrite getCachedResult_run, Hc.
  - by rewrite cacheResult_run, Hc.
  - by destruct b.
Qed.

Lemma performAll_disabled serialize equals cs s :
  useCaching s = false → neverEnables cs →
  cache (performAll serialize equals cs s) = cache s
  ∧ useCaching (performAll serialize equals cs s) = false.
Proof.
  unfold performAll, neverEnables. revert s.
  induction cs as [|c cs IH]; simpl; intros s Hc Hcs; [done|].
  apply Forall_cons in Hcs as [Hne Hcs].
  destruct (perform_disabled serialize equals c s Hc Hne) as [Hcache Huse].
  destruct (IH _ Huse Hcs) as [IH1 IH2]. by rewrite IH1, IH2, Hcache.
Qed.

(** C5. While caching is disabled the cache operations do nothing and do
    not throw, whatever the serializer would do with the query:
    [getCachedResult] returns nothing and [cacheResult] leaves the store,
    hence the cache map, as it is; so does the caching step of [setResult].
    No sequence of calls that keeps caching disabled changes the cache, and
    once caching is enabled again [getCachedResult] looks the current key up
    in that same cache: an entry cached earlier is visible again. *)
Theorem disabled_cache_is_inert serialize equals (s : Store) :
  useCaching s = false →
  getCachedResult serialize s = (Returned None, s)
  ∧ getCachedResult failingSerialize s = (Returned None, s)
  ∧ (∀ r, cacheResult serialize r s = (Returned (), s))
  ∧ (∀ r, cacheResult failingSerialize r s = (Returned (), s))
  ∧ (∀ r, (setResult serialize equals r s).1 = Returned ()
          ∧ cache (setResult serialize equals r s).2 = cache s)
  ∧ (∀ cs, neverEnables cs →
       cache (performAll serialize equals cs s) = cache s
       ∧ (getCachedResult serialize (performAll serialize equals cs s)).1
           = Returned None
       ∧ (getCachedResult serialize
            (shouldCache true (performAll serialize equals cs s)).2).1
           = match serializeObject serialize
                     (query (stateOf (performAll serialize equals cs s))) true
             with
             | Some key => Returned (JsMap.get key (cache s))
             | None => Thrown
             end)
  ∧ (getCachedResult Json.serialize pageOneStore).1
      = Returned (Some (itemsResult "A"))
  ∧ (getCachedResult Json.serialize disabledStore).1 = Returned None
  ∧ cache disabledStore = cache pageOneStore
  ∧ (getCachedResult Json.serialize reenabledStore).1
      = Returned (Some (itemsResult "A")).
Proof.
  intros Hc.
  split; [by rewrite getCachedResult_run, Hc|].
  split; [by rewrite getCachedResult_run, Hc|].
  split; [intros r; by rewrite cacheResult_run, Hc|].
  split; [intros r; by rewrite cacheResult_run, Hc|].
  split; [intros r; by rewrite setResult_run, Hc|].
  split; [|by vm_compute].
  intros cs Hcs.
  destruct (performAll_disabled serialize equals cs s Hc Hcs) as [Hcache Huse].
  split; [done|]. split; [by rewrite getCachedResult_run, Huse|].
  rewrite getCachedResult_run. unfold currentKey, stateOf. simpl.
  rewrite Hcache.
  by destruct (serializeObject _ _ _).
Qed.

Lemma disabled_cache_is_inert_witness :
  useCaching disabledStore = false
  ∧ getCachedResult Json.serialize disabledStore = (Returned None, disabledStore).
Proof.
  assert (useCaching disabledStore = false) as H1 by reflexivity.
  split; [exact H1|].
  exact (proj1 (disabled_cache_is_inert Json.serialize DeepEqual.equals
    disabledStore H1)).
Defined.

(** ** The change-gated emitter *)

Lemma updates_app {V : Type} (equals : V → V → bool) (xs ys : list V) s :
  StateSubject.updates equals (xs ++ ys) s
    = StateSubject.updates equals ys (StateSubject.updates equals xs s).
Proof. unfold StateSubject.updates. by rewrite fold_left_app. Qed.

Lemma update_step {V : Type} (equals : V → V → bool) (v : V) s :
  StateSubject.current (StateSubject.update equals v s) = v
  ∧ StateSubject.initialValue (StateSubject.update equals v s)
      = StateSubject.initialValue s
  ∧ (equals v (StateSubject.lastEmitted s) = false →
       StateSubject.delivered (StateSubject.update equals v s)
         = StateSubject.delivered s ++ [v]
       ∧ StateSubject.lastEmitted (StateSubject.update equals v s) = v)
  ∧ (equals v (StateSubject.lastEmitted s) = true →
       StateSubject.delivered (StateSubject.update equals v s)
         = StateSubject.delivered s
       ∧ StateSubject.lastEmitted (StateSubject.update equals v s)
           = StateSubject.lastEmitted s).
Proof.
  unfold StateSubject.update. simpl.
  split; [done|]. split; [done|]. split; intros ->; done.
Qed.

Lemma last_cons_default {A : Type} (x : A) (l : list A) (d d' : A) :
  List.last (x :: l) d = List.last (x :: l) d'.
Proof.
  revert x. induction l as [|y l IH]; intros x; [done|].
  change (List.last (y :: l) d = List.last (y :: l) d'). apply IH.
Qed.

Lemma last_cons_step {A : Type} (x : A) (l : list A) (d : A) :
  List.last (x :: l) d = List.last l x.
Proof. destruct l as [|y l]; [done|]. apply (last_cons_default y l d x). Qed.

Lemma updates_delivered {V : Type} (equals : V → V → bool) (values : list V) s :
  StateSubject.delivered (StateSubject.updates equals values s)
    = StateSubject.delivered s
      ++ StateSubject.differing equals (StateSubject.lastEmitted s) values
  ∧ StateSubject.lastEmitted (StateSubject.updates equals values s)
    = List.last
        (StateSubject.differing equals (StateSubject.lastEmitted s) values)
        (StateSubject.lastEmitted s)
  ∧ StateSubject.current (StateSubject.updates equals values s)
    = List.last values (StateSubject.current s).
Proof.
  unfold StateSubject.updates. revert s.
  induction values as [|v values IH]; intros s.
  - simpl. by rewrite app_nil_r.
  - cbn [fold_left StateSubject.differing].
    destruct (IH (StateSubject.update equals v s)) as (IH1 & IH2 & IH3).
    destruct (update_step equals v s) as (Hcur & _ & Hdiff & Hsame).
    rewrite IH1, IH2, IH3, Hcur.
    destruct (equals v (StateSubject.lastEmitted s)) eqn:E.
    + destruct (Hsame eq_refl) as [-> ->].
      split; [done|]. split; [done|]. by rewrite last_cons_step.
    + destruct (Hdiff eq_refl) as [-> ->].
      split; [by rewrite <- app_assoc|].
      split; by rewrite last_cons_step.
Qed.

(** C7. For every sequence of [update] calls on an emitter, the
    notifications a subscriber receives are, in order, exactly the values of
    the calls that differ (by the deep comparison) from the value delivered
    last before the call.  Each call overwrites [current]; the last-emitted
    value changes only when the call delivers.  The comparison is with the
    value delivered last, not with [current]: under a comparison that is not
    transitive the two differ. *)
Theorem updates_deliver_differing {V : Type} (equals : V → V → bool)
    (before : list V) (v : V) (after : list V) (s : StateSubject.t V) :
  let s1 := StateSubject.updates equals before s in
  let s2 := StateSubject.update equals v s1 in
  StateSubject.updates equals (before ++ v :: after) s
    = StateSubject.updates equals after s2
  ∧ StateSubject.delivered (StateSubject.updates equals (before ++ v :: after) s)
    = StateSubject.delivered s
      ++ StateSubject.differing equals (StateSubject.lastEmitted s)
           (before ++ v :: after)
  ∧ StateSubject.current s2 = v
  ∧ StateSubject.delivered s2
    = (if equals v (StateSubject.lastEmitted s1)
       then StateSubject.delivered s1
       else StateSubject.delivered s1 ++ [v])
  ∧ StateSubject.lastEmitted s2
    = (if equals v (StateSubject.lastEmitted s1)
       then StateSubject.lastEmitted s1
       else v)
  ∧ StateSubject.lastEmitted s1
    = List.last
        (StateSubject.differing equals (StateSubject.lastEmitted s) before)
        (StateSubject.lastEmitted s)
  ∧ StateSubject.delivered
      (StateSubject.updates near [1; 2]%Z (StateSubject.create 0%Z))
    = [2%Z].
Proof.
  intros s1 s2.
  split; [by rewrite updates_app|].
  split; [apply updates_delivered|].
  split; [done|].
  split; [unfold s2, StateSubject.update; simpl;
          by destruct (equals v (StateSubject.lastEmitted s1))|].
  split; [unfold s2, StateSubject.update; simpl;
          by destruct (equals v (StateSubject.lastEmitted s1))|].
  split; [apply updates_delivered|].
  reflexivity.
Qed.

(** * Further properties *)

(** ** Storing under a key that is not cached yet *)

Lemma set_fresh {K V : Type} `{EqDecision K} (k : K) (v : V)
    (m : JsMap.t K V) :
  JsMap.has k m = false → JsMap.set k v m = m ++ [(k, v)].
Proof.
  unfold JsMap.has. induction m as [|[k0 v0] m IH]; simpl; [done|].
  destruct (decide (k = k0)) as [->|Hne]; [done|].
  intros Hk. by rewrite IH.
Qed.

Lemma has_tail_false {K V : Type} `{EqDecision K} (k : K) (m : JsMap.t K V) :
  JsMap.has k m = false → JsMap.has k (tail m) = false.
Proof.
  unfold JsMap.has. destruct m as [|[k0 v0] m]; simpl; [done|].
  by destruct (decide (k = k0)).
Qed.

Lemma get_tail {K V : Type} `{EqDecision K} (k : K) (m : JsMap.t K V) :
  JsMap.wf m →
  JsMap.get k (tail m) =
    if decide (JsMap.first_key m = Some k) then None else JsMap.get k m.
Proof.
  unfold JsMap.wf, JsMap.first_key, JsMap.keys.
  destruct m as [|[k0 v0] m]; intros Hwf.
  - by destruct (decide (head (@nil (K * V)).*1 = Some k)).
  - apply NoDup_cons in Hwf as [Hk0 _]. simpl in Hk0.
    destruct (decide (head ((k0, v0) :: m).*1 = Some k)) as [Hk|Hk];
      simpl in Hk.
    + injection Hk as ->. by apply get_None_keys.
    + simpl. destruct (decide (k = k0)) as [->|Hne]; [done|done].
Qed.

(** X1. With caching enabled, [cacheResult] under a key that is not in the
    cache appends the entry as the newest one.  Below the limit the other
    entries are all kept; at or above the limit the oldest entry is dropped
    and the others are kept, values and order unchanged. *)
Theorem cacheResult_fresh_key serialize (r : Obj.t) (s : Store) key :
  useCaching s = true →
  serializeObject serialize (query (stateOf s)) true = Some key →
  JsMap.has key (cache s) = false →
  (cacheResult serialize r s).1 = Returned ()
  ∧ ((cacheSize s < Z.abs (cacheLimit s))%Z →
       cache (cacheResult serialize r s).2 = cache s ++ [(key, r)])
  ∧ ((Z.abs (cacheLimit s) ≤ cacheSize s)%Z →
       cache (cacheResult serialize r s).2 = tail (cache s) ++ [(key, r)]).
Proof.
  intros Hc Hkey Hfresh.
  rewrite cacheResult_run, Hc. unfold currentKey. rewrite Hkey. simpl.
  unfold cacheSize. split; [done|].
  destruct (evicted_cases (cacheLimit s) (cache s)) as [[Hlt ->]|[Hge ->]].
  - split; [intros _; by apply set_fresh|lia].
  - split; [lia|]. intros _. by apply set_fresh, has_tail_false.
Qed.

Lemma cacheResult_fresh_key_witness :
  useCaching limitTwoStore = true
  ∧ JsMap.has (pageKey 3) (cache limitTwoStore) = true
  ∧ JsMap.has (pageKey 4)
      (cache (performJson [SetQuery (pageQuery 4)] limitTwoStore)) = false
  ∧ cache (cacheResult Json.serialize (itemsResult "r4")
             (performJson [SetQuery (pageQuery 4)] limitTwoStore)).2
    = [(pageKey 3, itemsResult "r3"); (pageKey 4, itemsResult "r4")].
Proof.
  set (s := performJson [SetQuery (pageQuery 4)] limitTwoStore).
  assert (useCaching s = true) as H1 by reflexivity.
  assert (serializeObject Json.serialize (query (stateOf s)) true
          = Some (pageKey 4)) as H2 by (by vm_compute).
  assert (JsMap.has (pageKey 4) (cache s) = false) as H3 by (by vm_compute).
  split; [reflexivity|]. split; [by vm_compute|]. split; [exact H3|].
  pose proof (proj2 (proj2 (cacheResult_fresh_key Json.serialize
    (itemsResult "r4") s (pageKey 4) H1 H2 H3))) as H.
  assert (Z.abs (cacheLimit s) ≤ cacheSize s)%Z as Hfull by (by vm_compute).
  rewrite (H Hfull). by vm_compute.
Defined.

(** X2. [cacheResult] never changes the value cached under another key.
    The only other entry it can remove is the oldest one, and it removes it
    exactly when the cache is at or above the limit. *)
Theorem cacheResult_other_entries serialize (r : Obj.t) (s : Store) key k :
  useCaching s = true →
  JsMap.wf (cache s) →
  serializeObject serialize (query (stateOf s)) true = Some key →
  k ≠ key →
  JsMap.get k (cache (cacheResult serialize r s).2) =
    if decide ((Z.abs (cacheLimit s) ≤ cacheSize s)%Z
               ∧ JsMap.first_key (cache s) = Some k)
    then None
    else JsMap.get k (cache s).
Proof.
  intros Hc Hwf Hkey Hne.
  rewrite cacheResult_run, Hc. unfold currentKey. rewrite Hkey. simpl.
  rewrite get_set, decide_False by done. unfold cacheSize.
  destruct (evicted_cases (cacheLimit s) (cache s)) as [[Hlt ->]|[Hge ->]].
  - rewrite decide_False; [done|]. intros [? _]. lia.
  - rewrite get_tail by done.
    destruct (decide (JsMap.first_key (cache s) = Some k)) as [Hk|Hk].
    + by rewrite decide_True.
    + rewrite decide_False; [done|]. by intros [_ ?].
Qed.

Lemma cacheResult_other_entries_witness :
  useCaching limitTwoStore = true
  ∧ JsMap.wf (cache limitTwoStore)
  ∧ pageKey 2 ≠ pageKey 3
  ∧ JsMap.get (pageKey 2)
      (cache (cacheResult Json.serialize (itemsResult "r3bis") limitTwoStore).2)
    = None.
Proof.
  assert (useCaching limitTwoStore = true) as H1 by reflexivity.
  assert (JsMap.wf (cache limitTwoStore)) as H2.
  { unfold JsMap.wf.
    match goal with |- ?P => apply (@bool_decide_unpack P _) end.
    vm_compute. exact I. }
  assert (serializeObject Json.serialize (query (stateOf limitTwoStore)) true
          = Some (pageKey 3)) as H3 by (by vm_compute).
  assert (pageKey 2 ≠ pageKey 3) as H4 by (by vm_compute).
  split; [exact H1|]. split; [exact H2|]. split; [exact H4|].
  rewrite (cacheResult_other_entries Json.serialize (itemsResult "r3bis")
    limitTwoStore (pageKey 3) (pageKey 2) H1 H2 H3 H4).
  by vm_compute.
Defined.

(** X3. With caching enabled, [getCachedResult] right after [cacheResult(r)]
    returns [r], whatever the limit and whatever was cached before, while
    the state record, hence what [getResult] returns, is the one from before
    the call: the cache and the result field are written independently. *)
Theorem cacheResult_then_getCachedResult serialize (r : Obj.t) (s : Store) key :
  useCaching s = true →
  serializeObject serialize (query (stateOf s)) true = Some key →
  (getCachedResult serialize (cacheResult serialize r s).2).1
    = Returned (Some r)
  ∧ stateOf (cacheResult serialize r s).2 = stateOf s
  ∧ (getResult (cacheResult serialize r s).2).1 = (getResult s).1.
Proof.
  intros Hc Hkey.
  rewrite getCachedResult_run, cacheResult_run, Hc. unfold currentKey.
  rewrite Hkey. simpl. unfold stateOf in *. simpl. rewrite Hc, Hkey.
  by rewrite get_set, decide_True.
Qed.

Lemma cacheResult_then_getCachedResult_witness :
  useCaching zeroLimitStore = true
  ∧ (getCachedResult Json.serialize
       (cacheResult Json.serialize (itemsResult "Z") zeroLimitStore).2).1
    = Returned (Some (itemsResult "Z")).
Proof.
  assert (useCaching zeroLimitStore = true) as H1 by reflexivity.
  assert (serializeObject Json.serialize (query (stateOf zeroLimitStore)) true
          = Some (pageKey 1)) as H2 by (by vm_compute).
  split; [exact H1|].
  exact (proj1 (cacheResult_then_getCachedResult Json.serialize
    (itemsResult "Z") zeroLimitStore (pageKey 1) H1 H2)).
Defined.

(** X4. When the key cannot be computed, [cacheResult] throws after the
    eviction has been made: in a cache at or above the limit the oldest
    entry is lost although nothing is stored, and below the limit the store
    is left as it was.  [setResult] throws in the same way, with the same
    loss, and commits nothing. *)
Theorem cacheResult_throw_evicts serialize equals (r : Obj.t) (s : Store) :
  useCaching s = true →
  serializeObject serialize (query (stateOf s)) true = None →
  (cacheResult serialize r s).1 = Thrown
  ∧ (setResult serialize equals r s).1 = Thrown
  ∧ cache (setResult serialize equals r s).2
      = cache (cacheResult serialize r s).2
  ∧ subject (setResult serialize equals r s).2 = subject s
  ∧ ((cacheSize s < Z.abs (cacheLimit s))%Z →
       (cacheResult serialize r s).2 = s)
  ∧ ((Z.abs (cacheLimit s) ≤ cacheSize s)%Z →
       cache (cacheResult serialize r s).2 = tail (cache s)).
Proof.
  intros Hc Hkey.
  rewrite setResult_run, cacheResult_run, Hc. unfold currentKey.
  rewrite Hkey. simpl. unfold cacheSize.
  do 4 (split; [done|]).
  destruct (evicted_cases (cacheLimit s) (cache s)) as [[Hlt He]|[Hge He]].
  - split; [|lia]. intros _. unfold withCache. rewrite He. by destruct s.
  - split; [lia|]. intros _. by rewrite He.
Qed.

Lemma cacheResult_throw_evicts_witness :
  useCaching limitTwoStore = true
  ∧ (cacheResult failingSerialize (itemsResult "r") limitTwoStore).1 = Thrown
  ∧ JsMap.keys (cache (cacheResult failingSerialize (itemsResult "r")
                         limitTwoStore).2)
    = [pageKey 3].
Proof.
  assert (useCaching limitTwoStore = true) as H1 by reflexivity.
  assert (serializeObject failingSerialize (query (stateOf limitTwoStore)) true
          = None) as H2 by reflexivity.
  pose proof (cacheResult_throw_evicts failingSerialize DeepEqual.equals
    (itemsResult "r") limitTwoStore H1 H2) as (Ht & _ & _ & _ & _ & Hfull).
  split; [exact H1|]. split; [exact Ht|].
  rewrite Hfull; by vm_compute.
Defined.

(** ** The limit *)



Lemma evicted_opp limit (c : JsMap.t string Obj.t) :
  evicted (- limit) c = evicted limit c.
Proof. unfold evicted. by rewrite Z.abs_opp. Qed.

Lemma perform_opp_limit serialize equals c s :
  perform serialize equals c (withCacheLimit (- cacheLimit s) s)
    = withCacheLimit (- cacheLimit s) (perform serialize equals c s).
Proof.
  destruct c as [q| |r| |t| | | |r|b]; simpl; try done.
  - rewrite !setResult_run. unfold currentKey, stateOf, withCache, evicted.
    cbn [subject cache useCaching cacheLimit withCacheLimit].
    rewrite Z.abs_opp.
    by destruct (useCaching s); [destruct (serializeObject _ _ _)|].
  - by rewrite !getCacheKey_run.
  - rewrite !getCachedResult_run. unfold currentKey, stateOf. simpl.
    by destruct (useCaching s); [destruct (serializeObject _ _ _)|].
  - rewrite !cacheResult_run. unfold currentKey, stateOf, withCache, evicted.
    cbn [subject cache useCaching cacheLimit withCacheLimit].
    rewrite Z.abs_opp.
    by destruct (useCaching s); [destruct (serializeObject _ _ _)|].
Qed.

(** X6. Only the absolute value of [cacheLimit] matters: under the limit
    [-n] every sequence of calls leaves the same state record, the same
    cache and the same [useCaching] as under the limit [n]. *)
Theorem negative_limit_as_magnitude serialize equals (cs : list call)
    (limit : Z) (s : Store) :
  performAll serialize equals cs (withCacheLimit (- limit) s)
    = withCacheLimit (- limit)
        (performAll serialize equals cs (withCacheLimit limit s)).
Proof.
  assert (∀ s', cacheLimit s' = limit →
    performAll serialize equals cs (withCacheLimit (- limit) s')
      = withCacheLimit (- limit) (performAll serialize equals cs s')) as Hgen.
  { unfold performAll. induction cs as [|c cs IH]; intros s' Hl; [done|].
    simpl. rewrite <- Hl at 1 2. rewrite perform_opp_limit, Hl.
    apply IH. by rewrite perform_cacheLimit. }
  by rewrite <- (Hgen (withCacheLimit limit s)).
Qed.

(** ** The cache as a window over the insertions *)

Lemma lastN_all {A : Type} (n : nat) (l : list A) :
  length l ≤ n → lastN n l = l.
Proof.
  intros Hl. unfold lastN. by replace (length l - n) with 0 by lia.
Qed.

Lemma lastN_app {A : Type} (n : nat) (a b : list A) :
  lastN n (lastN n a ++ b) = lastN n (a ++ b).
Proof.
  unfold lastN.
  assert (drop (length a - n) a ++ b = drop (length a - n) (a ++ b)) as ->.
  { rewrite drop_app_le by lia. done. }
  rewrite drop_drop. f_equal.
  rewrite length_drop, !length_app. lia.
Qed.

Lemma lastN_snoc_full {A : Type} (n : nat) (l : list A) (x : A) :
  1 ≤ n → length l = n → lastN n (l ++ [x]) = tail l ++ [x].
Proof.
  intros Hn Hl. unfold lastN. rewrite length_app. simpl.
  replace (length l + 1 - n) with 1 by lia.
  destruct l as [|y l]; simpl in *; [lia|]. by rewrite drop_0.
Qed.

Lemma lastN_NoDup {A : Type} (n : nat) (a b : list A) :
  NoDup (a ++ b) → NoDup (lastN n a ++ b).
Proof.
  intros Hnd. unfold lastN.
  assert (drop (length a - n) a ++ b = drop (length a - n) (a ++ b)) as ->.
  { rewrite drop_app_le by lia. done. }
  eapply sublist_NoDup; [done|apply sublist_drop].
Qed.

Lemma insertion_cases serialize equals c s :
  (∀ o, serialize o ≠ None) →
  (insertion serialize c s = []
   ∧ cache (perform serialize equals c s) = cache s)
  ∨ (∃ key r,
       insertion serialize c s = [key]
       ∧ cache (perform serialize equals c s)
           = JsMap.set key r (evicted (cacheLimit s) (cache s))).
Proof.
  intros Htotal.
  assert (∀ q, serializeObject serialize q true ≠ None) as Hkey.
  { intros q. unfold serializeObject. simpl. apply Htotal. }
  destruct c as [q| |r| |t| | | |r|b]; simpl; try (by left).
  - rewrite setResult_run.
    destruct (useCaching s); [|by left]. unfold currentKey.
    destruct (serializeObject serialize (query (stateOf s)) true)
      as [key|] eqn:E; [|by apply Hkey in E].
    right. by eexists _, _.
  - rewrite getCacheKey_run. by left.
  - rewrite getCachedResult_run. left.
    by destruct (useCaching s); [destruct (currentKey serialize s)|].
  - rewrite cacheResult_run.
    destruct (useCaching s); [|by left]. unfold currentKey.
    destruct (serializeObject serialize (query (stateOf s)) true)
      as [key|] eqn:E; [|by apply Hkey in E].
    right. by eexists _, _.
Qed.

Lemma keys_stored_fresh limit key (r : Obj.t) (c : JsMap.t string Obj.t) :
  (1 ≤ Z.abs limit)%Z →
  (Z.of_nat (JsMap.size c) ≤ Z.abs limit)%Z →
  key ∉ JsMap.keys c →
  JsMap.keys (JsMap.set key r (evicted limit c))
    = lastN (Z.to_nat (Z.abs limit)) (JsMap.keys c ++ [key]).
Proof.
  intros Hpos Hb Hfresh.
  assert (JsMap.has key c = false) as Hhas.
  { destruct (JsMap.has key c) eqn:E; [|done].
    by apply has_true_keys in E. }
  assert (length (JsMap.keys c) = JsMap.size c) as Hlen.
  { unfold JsMap.keys, JsMap.size. by rewrite length_fmap. }
  destruct (evicted_cases limit c) as [[Hlt ->]|[Hge ->]].
  - rewrite set_fresh by done. unfold JsMap.keys. rewrite fmap_app. simpl.
    rewrite lastN_all; [done|]. rewrite length_app, length_fmap. simpl.
    unfold JsMap.size in Hlt. lia.
  - rewrite set_fresh by (by apply has_tail_false).
    rewrite lastN_snoc_full by lia.
    unfold JsMap.keys. rewrite fmap_app. simpl. by destruct c.
Qed.

(** X7. The cache is a first-in first-out window.  With a limit other than
    0, a serializer that does not throw, and calls that store under keys
    that are all different and not yet cached, the keys of the cache after
    the calls are the last [|cacheLimit|] of the keys cached before followed
    by the keys stored by the calls, oldest first.  Reads, and calls made
    while caching is disabled, have no part in it. *)
Theorem cache_is_fifo_window serialize equals (cs : list call) (s : Store) :
  (∀ o, serialize o ≠ None) →
  cacheLimit s ≠ 0%Z →
  (cacheSize s ≤ Z.abs (cacheLimit s))%Z →
  NoDup (JsMap.keys (cache s) ++ insertions serialize equals cs s) →
  JsMap.keys (cache (performAll serialize equals cs s))
    = lastN (Z.to_nat (Z.abs (cacheLimit s)))
        (JsMap.keys (cache s) ++ insertions serialize equals cs s).
Proof.
  intros Htotal. unfold performAll, cacheSize. revert s.
  induction cs as [|c cs IH]; intros s Hnz Hb Hnd.
  - simpl. rewrite app_nil_r. rewrite lastN_all; [done|].
    unfold JsMap.keys, JsMap.size in *. rewrite length_fmap. lia.
  - cbn [fold_left insertions].
    assert (cacheLimit (perform serialize equals c s) = cacheLimit s) as Hl
      by apply perform_cacheLimit.
    assert (bounded (perform serialize equals c s)) as Hb'.
    { apply perform_bounded; [lia|done]. }
    unfold bounded, cacheSize in Hb'. rewrite Hl in Hb'.
    cbn [insertions] in Hnd.
    destruct (insertion_cases serialize equals c s Htotal)
      as [[Hins Hcache]|(key & r & Hins & Hcache)]; rewrite Hins in *.
    + simpl in *. rewrite IH; rewrite ?Hl, ?Hcache; done.
    + assert (key ∉ JsMap.keys (cache s)) as Hfresh.
      { apply NoDup_app in Hnd as (_ & Hdisj & _).
        intros Hin. apply (Hdisj _ Hin). left. }
      assert (JsMap.keys (cache (perform serialize equals c s))
              = lastN (Z.to_nat (Z.abs (cacheLimit s)))
                  (JsMap.keys (cache s) ++ [key])) as Hkeys.
      { rewrite Hcache. apply keys_stored_fresh; [lia|done|done]. }
      rewrite IH; rewrite ?Hl, ?Hkeys; [|done|done|].
      * rewrite lastN_app. by rewrite <- app_assoc.
      * apply lastN_NoDup. by rewrite <- app_assoc.
Qed.

Lemma cache_is_fifo_window_witness :
  (∀ o, Json.serialize o ≠ None)
  ∧ cacheLimit limitTwoStore ≠ 0%Z
  ∧ JsMap.keys
      (cache (performJson
                [SetQuery (pageQuery 4); CacheResult (itemsResult "r4");
                 GetCachedResult;
                 SetQuery (pageQuery 5); SetResult (itemsResult "r5")]
                limitTwoStore))
    = [pageKey 4; pageKey 5].
Proof.
  set (cs := [SetQuery (pageQuery 4); CacheResult (itemsResult "r4");
              GetCachedResult;
              SetQuery (pageQuery 5); SetResult (itemsResult "r5")]).
  assert (∀ o, Json.serialize o ≠ None) as H1 by done.
  assert (cacheLimit limitTwoStore ≠ 0%Z) as H2 by (by vm_compute).
  assert (cacheSize limitTwoStore ≤ Z.abs (cacheLimit limitTwoStore))%Z as H3
    by (by vm_compute).
  assert (NoDup (JsMap.keys (cache limitTwoStore)
                 ++ insertions Json.serialize DeepEqual.equals cs
                      limitTwoStore)) as H4.
  { match goal with |- ?P => apply (@bool_decide_unpack P _) end.
    vm_compute. exact I. }
  split; [exact H1|]. split; [exact H2|].
  unfold performJson.
  rewrite (cache_is_fifo_window Json.serialize DeepEqual.equals cs
    limitTwoStore H1 H2 H3 H4).
  by vm_compute.
Defined.

(** ** Repeated removal *)

Lemma removeOldestEntry_cons {K V : Type} `{EqDecision K} (undef : K → bool)
    (k : K) (v : V) (m : JsMap.t K V) :
  removeOldestEntry undef ((k, v) :: m)
    = if undef k then (k, v) :: m else m.
Proof.
  unfold removeOldestEntry, JsMap.first_key, JsMap.keys. simpl.
  destruct (undef k); [done|]. by rewrite decide_True.
Qed.

(** X8. Calling [removeOldestEntry] [n] times removes the [n] oldest
    entries, but never goes past an entry whose key is [undefined]: the
    removal stops there for good, and on an empty map it does nothing. *)
Theorem removeOldestEntry_repeated {K V : Type} `{EqDecision K}
    (undef : K → bool) (n : nat) (m : JsMap.t K V) :
  Nat.iter n (removeOldestEntry undef) m
    = drop (n `min` definedPrefix undef m) m.
Proof.
  revert m. induction n as [|n IH]; intros m; [done|].
  rewrite Nat.iter_succ_r.
  destruct m as [|[k v] m].
  - assert (removeOldestEntry undef (@nil (K * V)) = []) as -> by done.
    rewrite IH. by rewrite !drop_nil.
  - rewrite removeOldestEntry_cons. simpl.
    destruct (undef k) eqn:Hk.
    + rewrite IH. simpl. rewrite Hk. by rewrite Nat.min_0_r.
    + by rewrite IH.
Qed.

(** ** The two ways of serializing *)

Lemma omitBy_app o1 o2 p : omitBy (o1 ++ o2) p = omitBy o1 p ++ omitBy o2 p.
Proof. unfold omitBy. apply List.filter_app. Qed.

Lemma without_absent f o : f ∉ Obj.keys o → without f o = o.
Proof.
  unfold without, Obj.keys.
  induction o as [|[k v] o IH]; simpl; intros Hf; [done|].
  apply not_elem_of_cons in Hf as [Hne Hf].
  rewrite bool_decide_false by done. simpl. by rewrite IH.
Qed.

Lemma omitBy_without f o :
  Obj.wf o →
  omitBy (Obj.update f VUndefined o) is_undefined
    = omitBy (without f o) is_undefined.
Proof.
  unfold Obj.wf, Obj.keys.
  induction o as [|[k v] o IH]; simpl; intros Hwf; [done|].
  apply NoDup_cons in Hwf as [Hk Hwf]. simpl in Hk.
  destruct (decide (f = k)) as [->|Hne]; simpl.
  - rewrite bool_decide_true by done. simpl.
    by rewrite (without_absent k o).
  - rewrite bool_decide_false by done. simpl. by rewrite IH.
Qed.

Lemma omitBy_insert_index i f o :
  omitBy (Obj.insert_index i f VUndefined o) is_undefined
    = omitBy o is_undefined.
Proof.
  induction o as [|[k v] o IH]; simpl; [done|].
  destruct (Obj.array_index k) as [j|]; [destruct (j <? i)%N|]; simpl;
    try done.
  by rewrite IH.
Qed.

(** X9. Serializing without sorting also leaves out the fields that are
    [undefined]: giving a field the value [undefined], whether the record
    had the field or not, serializes as the record without the field. *)
Theorem serializeObject_unsorted_undefined serialize (f : string) (q : Obj.t) :
  Obj.wf q →
  serializeObject serialize (Obj.define f VUndefined q) false
    = serializeObject serialize (without f q) false.
Proof.
  intros Hwf. unfold serializeObject. simpl. f_equal.
  unfold Obj.define. destruct (Obj.has f q) eqn:Hhas.
  - by apply omitBy_without.
  - apply has_false_keys in Hhas. rewrite (without_absent f q Hhas).
    destruct (Obj.array_index f).
    + apply omitBy_insert_index.
    + rewrite omitBy_app. simpl. by rewrite app_nil_r.
Qed.

Lemma serializeObject_unsorted_undefined_witness :
  Obj.wf (query (stateOf exampleStore))
  ∧ serializeObject Json.serialize
      (Obj.define "q" VUndefined (query (stateOf exampleStore))) false
    = serializeObject Json.serialize (pageQuery 1) false.
Proof.
  assert (Obj.wf (query (stateOf exampleStore))) as H1 by solve_wf.
  split; [exact H1|].
  exact (serializeObject_unsorted_undefined Json.serialize "q"
    (query (stateOf exampleStore)) H1).
Defined.

Lemma sortedCopy_fold_entries (f : Obj.t) names acc :
  NoDup (Obj.keys acc ++ names) →
  Forall plain_name names →
  fold_left (λ acc key, Obj.assign key (Obj.get key f) acc) names acc
    = acc ++ ((λ k, (k, Obj.get k f)) <$> names).
Proof.
  revert acc. induction names as [|k names IH]; simpl; intros acc Hnd Hplain.
  - by rewrite app_nil_r.
  - apply Forall_cons in Hplain as [[Hidx Hproto] Hplain].
    assert (Obj.has k acc = false) as Hhas.
    { apply has_false_keys. apply NoDup_app in Hnd as (_ & Hdisj & _).
      intros Hin. apply (Hdisj _ Hin). left. }
    unfold Obj.assign, Obj.define.
    rewrite decide_False, Hhas, Hidx by done.
    rewrite IH; [by rewrite <- app_assoc| |done].
    unfold Obj.keys. rewrite fmap_app. simpl. by rewrite <- app_assoc.
Qed.

Lemma entries_of_keys (f : Obj.t) :
  Obj.wf f → (λ k, (k, Obj.get k f)) <$> Obj.keys f = f.
Proof.
  unfold Obj.wf, Obj.keys, Obj.get.
  induction f as [|[k v] f IH]; simpl; intros Hwf; [done|].
  apply NoDup_cons in Hwf as [Hk Hwf]. simpl in Hk.
  rewrite decide_True by done. simpl. f_equal.
  rewrite <- (IH Hwf) at 2. apply list_fmap_ext.
  intros i k' Hk'. rewrite decide_False; [done|].
  intros ->. apply Hk. by eapply list_elem_of_lookup_2.
Qed.

(** X10. On a record whose fields that are not [undefined] are already in
    sorted order, and none of whose names is an array index or [__proto__],
    sorting changes nothing: the record rebuilt from the sorted names is the
    filtered record itself, so both ways of serializing give the same
    string. *)
Theorem serializeObject_sorted_is_unsorted serialize (q : Obj.t) :
  Obj.wf q →
  Forall plain_name (Obj.keys (omitBy q is_undefined)) →
  Sorted key_le (Obj.keys (omitBy q is_undefined)) →
  sortedCopy (omitBy q is_undefined) = omitBy q is_undefined
  ∧ serializeObject serialize q true = serializeObject serialize q false.
Proof.
  intros Hwf Hplain Hsorted.
  assert (sortedCopy (omitBy q is_undefined) = omitBy q is_undefined) as Heq.
  { unfold sortedCopy.
    assert (sort_keys (Obj.keys (omitBy q is_undefined))
            = Obj.keys (omitBy q is_undefined)) as ->.
    { unfold sort_keys. apply (Sorted_unique key_le).
      - apply (Sorted_merge_sort key_le).
      - done.
      - apply merge_sort_Permutation. }
    rewrite sortedCopy_fold_entries; [| |done].
    - simpl. apply entries_of_keys. by apply wf_omitBy.
    - simpl. by apply wf_omitBy. }
  split; [done|]. unfold serializeObject. simpl. by rewrite Heq.
Qed.

Lemma serializeObject_sorted_is_unsorted_witness :
  Obj.wf sortedRecord
  ∧ Sorted key_le (Obj.keys (omitBy sortedRecord is_undefined))
  ∧ serializeObject Json.serialize sortedRecord true
    = serializeObject Json.serialize sortedRecord false.
Proof.
  assert (Obj.wf sortedRecord) as H1 by solve_wf.
  assert (Forall plain_name (Obj.keys (omitBy sortedRecord is_undefined)))
    as H2.
  { repeat constructor; by vm_compute. }
  assert (Sorted key_le (Obj.keys (omitBy sortedRecord is_undefined))) as H3.
  { match goal with |- ?P => apply (@bool_decide_unpack P _) end.
    vm_compute. exact I. }
  split; [exact H1|]. split; [exact H3|].
  exact (proj2 (serializeObject_sorted_is_unsorted Json.serialize
    sortedRecord H1 H2 H3)).
Defined.

(** ** Which queries share a cache key *)

Lemma StronglySorted_filter_keys (P : string → Prop) `{∀ x, Decision (P x)}
    (l : list string) :
  StronglySorted key_le l → StronglySorted key_le (filter P l).
Proof.
  induction 1 as [|k l Hl IH Hk]; [constructor|].
  rewrite filter_cons. destruct (decide (P k)); [|done].
  constructor; [done|].
  apply Forall_forall. intros x Hx. apply list_elem_of_filter in Hx as [_ Hx].
  rewrite Forall_forall in Hk. by apply Hk.
Qed.

Lemma sortedCopy_fold_skip (f : Obj.t) names acc :
  fold_left (λ acc key, Obj.assign key (Obj.get key f) acc) names acc
    = fold_left (λ acc key, Obj.assign key (Obj.get key f) acc)
        (filter (λ k, k ≠ "__proto__"%string) names) acc.
Proof.
  revert acc. induction names as [|k names IH]; intros acc; [done|].
  rewrite filter_cons. cbn [fold_left].
  destruct (decide (k ≠ "__proto__"%string)) as [Hne|Heq].
  - cbn [fold_left]. apply IH.
  - apply dec_stable in Heq. subst k. unfold Obj.assign at 2.
    rewrite decide_True by done. apply IH.
Qed.

Lemma sortedCopy_fold_values (f1 f2 : Obj.t) names acc :
  (∀ k, k ≠ "__proto__"%string → Obj.lookup k f1 = Obj.lookup k f2) →
  Forall (λ k, k ≠ "__proto__"%string) names →
  fold_left (λ acc key, Obj.assign key (Obj.get key f1) acc) names acc
    = fold_left (λ acc key, Obj.assign key (Obj.get key f2) acc) names acc.
Proof.
  intros Hl. revert acc.
  induction names as [|k names IH]; intros acc Hnames; [done|].
  apply Forall_cons in Hnames as [Hk Hnames]. cbn [fold_left].
  unfold Obj.get at 2 4. rewrite (Hl k Hk). by apply IH.
Qed.

Lemma sortedCopy_ext_plain f1 f2 :
  Obj.wf f1 → Obj.wf f2 →
  (∀ k, k ≠ "__proto__"%string → Obj.lookup k f1 = Obj.lookup k f2) →
  sortedCopy f1 = sortedCopy f2.
Proof.
  intros Hwf1 Hwf2 Hl. unfold sortedCopy.
  rewrite (sortedCopy_fold_skip f1), (sortedCopy_fold_skip f2).
  assert (filter (λ k, k ≠ "__proto__"%string) (sort_keys (Obj.keys f1))
          = filter (λ k, k ≠ "__proto__"%string) (sort_keys (Obj.keys f2)))
    as ->.
  { unfold sort_keys. apply (StronglySorted_unique key_le).
    - apply StronglySorted_filter_keys, Sorted_StronglySorted; [apply _|].
      apply (Sorted_merge_sort key_le).
    - apply StronglySorted_filter_keys, Sorted_StronglySorted; [apply _|].
      apply (Sorted_merge_sort key_le).
    - rewrite !merge_sort_Permutation.
      apply NoDup_Permutation; [by apply NoDup_filter..|].
      intros k. rewrite !list_elem_of_filter.
      split; intros [Hk Hin]; (split; [done|]).
      + destruct (decide (k ∈ Obj.keys f2)) as [|Hn]; [done|].
        apply lookup_None_keys in Hn. rewrite <- Hl in Hn by done.
        by apply lookup_None_keys in Hn.
      + destruct (decide (k ∈ Obj.keys f1)) as [|Hn]; [done|].
        apply lookup_None_keys in Hn. rewrite Hl in Hn by done.
        by apply lookup_None_keys in Hn. }
  apply sortedCopy_fold_values; [done|].
  apply Forall_forall. intros k Hk. by apply list_elem_of_filter in Hk as [? _].
Qed.

Lemma lookup_omitBy_defined k v q :
  Obj.wf q → v ≠ VUndefined →
  Obj.lookup k (omitBy q is_undefined) = Some v ↔ Obj.lookup k q = Some v.
Proof.
  intros Hwf Hv. rewrite lookup_omitBy by done.
  destruct (Obj.lookup k q) as [v'|]; [|done].
  destruct (is_undefined v') eqn:E.
  - apply is_undefined_true in E. subst v'. split; [done|congruence].
  - done.
Qed.

Lemma lookup_omitBy_None k q :
  Obj.wf q →
  Obj.lookup k (omitBy q is_undefined) = None
  ↔ ∀ v, v ≠ VUndefined → Obj.lookup k q ≠ Some v.
Proof.
  intros Hwf. rewrite lookup_omitBy by done.
  destruct (Obj.lookup k q) as [v'|]; [|done].
  destruct (is_undefined v') eqn:E.
  - apply is_undefined_true in E. subst v'. split; [congruence|done].
  - apply is_undefined_false in E. split; [done|]. intros Hn. by destruct (Hn v').
Qed.

(** X11. The record handed to the serializer is the same for two queries
    exactly when they agree on every field that is neither [undefined] nor
    named [__proto__]; such queries therefore have the same cache key.  A
    field named [__proto__] never reaches the key: the assignment that
    rebuilds the record does not create that property. *)
Theorem sortedCopy_eq_iff serialize (q1 q2 : Obj.t) :
  Obj.wf q1 → Obj.wf q2 →
  (sortedCopy (omitBy q1 is_undefined) = sortedCopy (omitBy q2 is_undefined)
   ↔ agree_defined_plain q1 q2)
  ∧ (agree_defined_plain q1 q2 →
       serializeObject serialize q1 true = serializeObject serialize q2 true)
  ∧ serializeObject serialize q1 true
      = serializeObject serialize (without "__proto__" q1) true.
Proof.
  intros Hwf1 Hwf2.
  assert (∀ qa qb, Obj.wf qa → Obj.wf qb → agree_defined_plain qa qb →
    sortedCopy (omitBy qa is_undefined) = sortedCopy (omitBy qb is_undefined))
    as Hback.
  { intros qa qb Ha Hb Hagree.
    apply sortedCopy_ext_plain; [by apply wf_omitBy..|].
    intros k Hk.
    destruct (Obj.lookup k (omitBy qa is_undefined)) as [v|] eqn:E.
    - assert (v ≠ VUndefined) as Hv.
      { rewrite lookup_omitBy in E by done.
        destruct (Obj.lookup k qa) as [v'|]; [|done].
        destruct (is_undefined v') eqn:U; [done|].
        injection E as <-. by apply is_undefined_false. }
      symmetry. apply (proj2 (lookup_omitBy_defined k v qb Hb Hv)).
      apply (proj1 (Hagree k v Hk Hv)).
      exact (proj1 (lookup_omitBy_defined k v qa Ha Hv) E).
    - symmetry. apply (proj2 (lookup_omitBy_None k qb Hb)). intros v Hv Hq.
      apply (proj2 (Hagree k v Hk Hv)) in Hq.
      apply (proj2 (lookup_omitBy_defined k v qa Ha Hv)) in Hq. congruence. }
  split; [split|split].
  - intros Heq k v Hk Hv.
    rewrite <- (lookup_omitBy_defined k v q1 Hwf1 Hv).
    rewrite <- (lookup_omitBy_defined k v q2 Hwf2 Hv).
    rewrite <- (sortedCopy_lookup (omitBy q1 is_undefined) k Hk).
    rewrite <- (sortedCopy_lookup (omitBy q2 is_undefined) k Hk).
    by rewrite Heq.
  - by apply Hback.
  - intros Hagree. unfold serializeObject. simpl. f_equal. by apply Hback.
  - unfold serializeObject. simpl. f_equal.
    apply Hback; [done|by apply wf_without|].
    intros k v Hk Hv. by rewrite lookup_without, decide_False.
Qed.

Lemma sortedCopy_eq_iff_witness :
  Obj.wf [("__proto__"%string, VNum 5); ("page"%string, VNum 1)]
  ∧ Obj.wf (pageQuery 1)
  ∧ serializeObject Json.serialize
      [("__proto__"%string, VNum 5); ("page"%string, VNum 1)] true
    = serializeObject Json.serialize (pageQuery 1) true.
Proof.
  assert (Obj.wf [("__proto__"%string, VNum 5); ("page"%string, VNum 1)])
    as H1 by solve_wf.
  assert (Obj.wf (pageQuery 1)) as H2 by solve_wf.
  split; [exact H1|]. split; [exact H2|].
  exact (proj2 (proj2 (sortedCopy_eq_iff Json.serialize
    [("__proto__"%string, VNum 5); ("page"%string, VNum 1)] (pageQuery 1)
    H1 H2))).
Defined.

(** ** How the setters compose *)

Lemma lookup_agree_defined q1 q2 :
  (∀ k, Obj.lookup k q1 = Obj.lookup k q2) → agree_defined q1 q2.
Proof. intros Hl k v _. by rewrite Hl. Qed.

(** X12. Two [setQuery] calls in a row amount to one call with the second
    partial merged into the first: the query has the same fields with the
    same values, a later value (even [undefined]) winning over an earlier
    one, and the cache key and the cached result found for it are the
    same. *)
Theorem setQuery_twice serialize equals (s : Store) (p1 p2 : Obj.t) :
  Obj.wf (query (stateOf s)) → Obj.wf p1 → Obj.wf p2 →
  (∀ k,
     Obj.lookup k
       (query (stateOf (setQuery equals p2 (setQuery equals p1 s).2).2))
     = Obj.lookup k
         (query (stateOf (setQuery equals (Obj.spread p1 p2) s).2)))
  ∧ (∀ k,
       Obj.lookup k
         (query (stateOf (setQuery equals p2 (setQuery equals p1 s).2).2))
       = match Obj.lookup k p2 with
         | Some v => Some v
         | None =>
             match Obj.lookup k p1 with
             | Some v => Some v
             | None => Obj.lookup k (query (stateOf s))
             end
         end)
  ∧ (getCacheKey serialize (setQuery equals p2 (setQuery equals p1 s).2).2).1
    = (getCacheKey serialize (setQuery equals (Obj.spread p1 p2) s).2).1
  ∧ (getCachedResult serialize
       (setQuery equals p2 (setQuery equals p1 s).2).2).1
    = (getCachedResult serialize
         (setQuery equals (Obj.spread p1 p2) s).2).1.
Proof.
  intros Hq H1 H2.
  rewrite !getCachedResult_run, !getCacheKey_run, !setQuery_run.
  unfold currentKey, stateOf. simpl.
  set (q := query (StateSubject.current (subject s))) in *.
  assert (∀ k, Obj.lookup k (Obj.spread (Obj.spread q p1) p2)
             = match Obj.lookup k p2 with
               | Some v => Some v
               | None =>
                   match Obj.lookup k p1 with
                   | Some v => Some v
                   | None => Obj.lookup k q
                   end
               end) as Hl.
  { intros k. rewrite lookup_spread by (done || apply wf_spread).
    by rewrite lookup_spread. }
  assert (∀ k, Obj.lookup k (Obj.spread (Obj.spread q p1) p2)
             = Obj.lookup k (Obj.spread q (Obj.spread p1 p2))) as Hsame.
  { intros k. rewrite Hl.
    rewrite (lookup_spread k q) by (done || apply wf_spread).
    rewrite lookup_spread by done.
    by destruct (Obj.lookup k p2), (Obj.lookup k p1). }
  assert (serializeObject serialize (Obj.spread (Obj.spread q p1) p2) true
          = serializeObject serialize (Obj.spread q (Obj.spread p1 p2)) true)
    as Hkey.
  { apply serializeObject_agree; [apply wf_spread..|].
    by apply lookup_agree_defined. }
  split; [done|]. split; [done|]. rewrite Hkey. split; [done|].
  destruct (useCaching s); [|reflexivity].
  destruct (serializeObject serialize (Obj.spread q (Obj.spread p1 p2)) true);
    reflexivity.
Qed.

Lemma setQuery_twice_witness :
  Obj.wf (query (stateOf exampleStore))
  ∧ Obj.wf (pageQuery 2)
  ∧ Obj.wf [("q"%string, VUndefined); ("page"%string, VNum 3)]
  ∧ (getCacheKey Json.serialize
       (setQuery DeepEqual.equals
          [("q"%string, VUndefined); ("page"%string, VNum 3)]
          (setQuery DeepEqual.equals (pageQuery 2) exampleStore).2).2).1
    = Returned (pageKey 3).
Proof.
  assert (Obj.wf (query (stateOf exampleStore))) as H1 by solve_wf.
  assert (Obj.wf (pageQuery 2)) as H2 by solve_wf.
  assert (Obj.wf [("q"%string, VUndefined); ("page"%string, VNum 3)]) as H3
    by solve_wf.
  split; [exact H1|]. split; [exact H2|]. split; [exact H3|].
  rewrite (proj1 (proj2 (proj2 (setQuery_twice Json.serialize
    DeepEqual.equals exampleStore (pageQuery 2)
    [("q"%string, VUndefined); ("page"%string, VNum 3)] H1 H2 H3)))).
  by vm_compute.
Defined.

(** X13. Only [setQuery] moves the cache key: after any other call the
    store holds the same query, so [getCacheKey] has the same outcome.  In
    particular storing a result or a transient value, or switching caching
    on or off, never changes the entry that [getCachedResult] looks up. *)
Theorem only_setQuery_moves_key serialize equals (c : call) (s : Store) :
  (∀ q, c ≠ SetQuery q) →
  query (stateOf (perform serialize equals c s)) = query (stateOf s)
  ∧ (getCacheKey serialize (perform serialize equals c s)).1
    = (getCacheKey serialize s).1.
Proof.
  intros Hc.
  assert (query (stateOf (perform serialize equals c s)) = query (stateOf s))
    as Hq.
  { destruct c as [q| |r| |t| | | |r|b]; simpl; try done.
    - by destruct (Hc q).
    - rewrite setResult_run.
      by destruct (useCaching s); [destruct (currentKey serialize s)|].
    - by rewrite getCacheKey_run.
    - rewrite getCachedResult_run.
      by destruct (useCaching s); [destruct (currentKey serialize s)|].
    - rewrite cacheResult_run.
      by destruct (useCaching s); [destruct (currentKey serialize s)|]. }
  split; [done|]. rewrite !getCacheKey_run. unfold currentKey. by rewrite Hq.
Qed.

Lemma only_setQuery_moves_key_witness :
  (∀ q, SetResult (itemsResult "B") ≠ SetQuery q)
  ∧ (getCacheKey Json.serialize
       (perform Json.serialize DeepEqual.equals (SetResult (itemsResult "B"))
          pageOneStore)).1
    = (getCacheKey Json.serialize pageOneStore).1.
Proof.
  assert (∀ q, SetResult (itemsResult "B") ≠ SetQuery q) as H1 by done.
  split; [exact H1|].
  exact (proj2 (only_setQuery_moves_key Json.serialize DeepEqual.equals
    (SetResult (itemsResult "B")) pageOneStore H1)).
Defined.

(** ** Results set while caching is disabled *)

(** X14. A result set while caching is disabled reaches the state but not
    the cache: once caching is enabled again, [getCachedResult] still
    returns the entry cached before for the query, while [getResult]
    returns the newer merged result. *)
Theorem stale_entry_after_disabled_setResult serialize equals (s : Store)
    (p r0 : Obj.t) key :
  useCaching s = true →
  serializeObject serialize (query (stateOf s)) true = Some key →
  JsMap.get key (cache s) = Some r0 →
  (getCachedResult serialize
     (performAll serialize equals
        [ShouldCache false; SetResult p; ShouldCache true] s)).1
    = Returned (Some r0)
  ∧ (getResult
       (performAll serialize equals
          [ShouldCache false; SetResult p; ShouldCache true] s)).1
    = Returned (Obj.spread (result (stateOf s)) p)
  ∧ cache (performAll serialize equals
             [ShouldCache false; SetResult p; ShouldCache true] s)
    = cache s.
Proof.
  intros Hc Hkey Hget. unfold performAll. cbn [fold_left perform].
  rewrite setResult_run, getCachedResult_run.
  unfold currentKey, stateOf in *. simpl. by rewrite Hkey, Hget.
Qed.

Lemma stale_entry_after_disabled_setResult_witness :
  useCaching pageOneStore = true
  ∧ JsMap.get (pageKey 1) (cache pageOneStore) = Some (itemsResult "A")
  ∧ (getCachedResult Json.serialize
       (performJson
          [ShouldCache false; SetResult (itemsResult "B"); ShouldCache true]
          pageOneStore)).1
    = Returned (Some (itemsResult "A"))
  ∧ (getResult
       (performJson
          [ShouldCache false; SetResult (itemsResult "B"); ShouldCache true]
          pageOneStore)).1
    = Returned (itemsResult "B").
Proof.
  assert (useCaching pageOneStore = true) as H1 by reflexivity.
  assert (serializeObject Json.serialize (query (stateOf pageOneStore)) true
          = Some (pageKey 1)) as H2 by (by vm_compute).
  assert (JsMap.get (pageKey 1) (cache pageOneStore)
          = Some (itemsResult "A")) as H3 by (by vm_compute).
  pose proof (stale_entry_after_disabled_setResult Json.serialize
    DeepEqual.equals pageOneStore (itemsResult "B") (itemsResult "A")
    (pageKey 1) H1 H2 H3) as (Ha & Hb & _).
  split; [exact H1|]. split; [exact H3|]. split; [exact Ha|].
  unfold performJson. rewrite Hb. by vm_compute.
Defined.
